(** * sync_rules.py: directive parser and output composer

    A shallow embedding of [parse_base_file], [build_outputs],
    [write_outputs], [parse_map_args] and [main] from [sync_rules.py],
    followed by the properties of the parser and the composer.

    Conventions of the embedding.
    - A Python [str] is the list of its Unicode code points ([list N]);
      [codes] turns an ASCII literal into that form.
    - [buckets] (a [dict] that is only ever accessed by key) is a [gmap];
      [current_editors] and [editors] (Python [set]s) are [gset]s, and a
      [for] loop over a set is a [set_fold].
    - [editor_aliases] and [outputs] are dicts that the program iterates,
      so they keep their insertion order: association lists updated with
      [dict_set].
    - An exception is a value of [exn]; a function that can raise returns
      a [result].
    - What lies outside the program is an input: a [world] tells which
      writes and prints fail, a [base_state] what the base file is on
      disk, and [expanduser] what [Path(..).expanduser()] returns or
      raises. *)

From Stdlib Require Import NArith Ascii String.
From stdpp Require Import gmap list.

Local Open Scope N_scope.

(* stdpp's set_solver clears hypotheses by name; harmless under Rocq 9. *)
#[local] Set Warnings "-clear-no-such-hyp".

(** ** Python strings *)

Abbreviation str := (list N).

Fixpoint codes (s : string) : str :=
  match s with
  | EmptyString => []
  | String a s' => N_of_ascii a :: codes s'
  end.

(** The line feed, ["\n"]. *)
Definition NL : N := 10.

(** [str.isspace] for one character: the code points CPython's
    [Py_UNICODE_ISSPACE] accepts (bidirectional class WS, B or S, or
    general category Zs). *)
Definition isspace (c : N) : bool :=
  ((9 <=? c) && (c <=? 13)) || ((28 <=? c) && (c <=? 32)) ||
  (c =? 133) || (c =? 160) || (c =? 5760) ||
  ((8192 <=? c) && (c <=? 8202)) || (c =? 8232) || (c =? 8233) ||
  (c =? 8239) || (c =? 8287) || (c =? 12288).

(** Drop the longest prefix of characters satisfying [p]. *)
Fixpoint dropwhile (p : N → bool) (s : str) : str :=
  match s with
  | [] => []
  | c :: s' => if p c then dropwhile p s' else s
  end.

(** [s.lstrip()], [s.rstrip()] and [s.strip()] without argument. *)
Definition lstrip (s : str) : str := dropwhile isspace s.
Definition rstrip (s : str) : str := rev (dropwhile isspace (rev s)).
Definition strip (s : str) : str := rstrip (lstrip s).

(** [s.rstrip(chars)]: drop the trailing characters that occur in [chars]. *)
Definition rstrip_chars (chars s : str) : str :=
  rev (dropwhile (λ c, bool_decide (c ∈ chars)) (rev s)).

(** [s.startswith(p)]. *)
Definition startswith (p s : str) : bool := bool_decide (p `prefix_of` s).

(** [s.split(sep)] for a separator of one character: the pieces between
    the occurrences of [sep]; always at least one piece. *)
Fixpoint split (sep : N) (s : str) : list str :=
  match s with
  | [] => [[]]
  | c :: s' =>
      if decide (c = sep) then [] :: split sep s'
      else match split sep s' with
           | [] => [[c]]
           | piece :: pieces => (c :: piece) :: pieces
           end
  end.

(** [sep.join(lines)]. *)
Fixpoint join (sep : str) (lines : list str) : str :=
  match lines with
  | [] => []
  | [l] => l
  | l :: ls => l ++ sep ++ join sep ls
  end.

(** ** Exceptions and results *)

(** [ValueError msg] stands for a [ValueError] or an instance of one of its
    subclasses (such as [UnicodeDecodeError]) whose [str] is [msg]: the
    program only ever catches them as [ValueError] and reads their text.
    [OtherError cls msg] is any exception of another class, by the name
    of its class and its text ([OSError] and its subclasses,
    [RuntimeError], ...). *)
Inductive exn : Type :=
  | ValueError (msg : str)
  | KeyError (key : str)
  | ArgumentTypeError (msg : str)
  | OtherError (cls msg : str).

Inductive result (A : Type) : Type :=
  | Ok (a : A)
  | Raise (e : exn).
Arguments Ok {A} a.
Arguments Raise {A} e.

#[global] Instance result_ret : MRet result := λ A a, Ok a.
#[global] Instance result_bind : MBind result := λ A B k r,
  match r with
  | Ok a => k a
  | Raise e => Raise e
  end.

(** ** The directive parser: [parse_base_file] *)

Definition ALL : str := codes "__ALL__".

(** The two variables the loop of [parse_base_file] updates. *)
Record state : Type := State {
  buckets : gmap str (list str);
  current_editors : gset str;
}.

(** [buckets.setdefault(ed, [])], for its effect on the dict. *)
Definition setdefault (ed : str) (b : gmap str (list str)) : gmap str (list str) :=
  match b !! ed with
  | Some _ => b
  | None => <[ed := []]> b
  end.

(** [buckets.setdefault(ed, []).append(line)]. *)
Definition setdefault_append (line ed : str) (b : gmap str (list str))
  : gmap str (list str) :=
  alter (λ l, l ++ [line]) ed (setdefault ed b).

(** The set comprehension
    [{e.strip() for e in line[len("::only "):].split(",") if e.strip()}]. *)
Definition editors_of (line : str) : gset str :=
  list_to_set
    (strip <$> filter (λ e, strip e ≠ [])
                 (split 44 (drop (length (codes "::only ")) line))).

Definition no_editors_msg (line : str) : str :=
  codes "No editors specified in directive at line: " ++ line.

(** One iteration of [for raw in fh]. *)
Definition step (st : state) (raw : str) : result state :=
  let line := rstrip_chars [NL] raw in
  if startswith (codes "::only ") line then
    let editors := editors_of line in
    if decide (editors = ∅) then Raise (ValueError (no_editors_msg line))
    else Ok (State (set_fold setdefault (buckets st) editors) editors)
  else if startswith (codes "::end") line then
    Ok (State (buckets st) {[ALL]})
  else
    Ok (State (set_fold (setdefault_append line) (buckets st) (current_editors st))
              (current_editors st)).

(** The loop, from a given state, over the raw lines the file yields. *)
Fixpoint parse_loop (st : state) (fh : list str) : result state :=
  match fh with
  | [] => Ok st
  | raw :: fh' => st' ← step st raw; parse_loop st' fh'
  end.

Definition init : state := State {[ALL := []]} {[ALL]}.

(** [parse_base_file], on the sequence of raw lines read from [base_path]. *)
Definition parse_base_file (fh : list str) : result (gmap str (list str)) :=
  st ← parse_loop init fh; Ok (buckets st).

(** ** Dicts that are iterated: insertion-ordered association lists *)

(** [d.get(k)]; [None] when the key is absent. *)
Fixpoint dict_get {V} (k : str) (d : list (str * V)) : option V :=
  match d with
  | [] => None
  | (k', v) :: d' => if decide (k' = k) then Some v else dict_get k d'
  end.

(** [d[k] = v]: an existing key keeps its position, a new key goes last. *)
Fixpoint dict_set {V} (k : str) (v : V) (d : list (str * V)) : list (str * V) :=
  match d with
  | [] => [(k, v)]
  | (k', v') :: d' =>
      if decide (k' = k) then (k', v) :: d' else (k', v') :: dict_set k v d'
  end.

(** ** The output composer: [build_outputs] *)

(** A destination [Path], by its text. *)
Abbreviation path := (list N).

Definition build_outputs (buckets : gmap str (list str))
    (editor_aliases : list (str * path)) : list (str * str) :=
  let common_lines := default [] (buckets !! ALL) in
  foldl (λ outputs '(editor, dest),
           let lines := common_lines ++ default [] (buckets !! editor) in
           dict_set editor (rstrip (join [NL] lines) ++ [NL]) outputs)
        [] editor_aliases.

(** ** The collaborator: [write_outputs] and [main] *)

(** What the program does to the outside world, in order. *)
Inductive event : Type :=
  | Ev_write_text (dest : path) (content : str)
  | Ev_print (text : str).

(** The outside world. [w history ev] tells whether the operation [ev],
    attempted after the events of [history] have been performed, fails,
    and with which exception: [write_text] on a destination that cannot
    be written, [print] on a closed output. Any run of the program is
    described by some world. *)
Definition world : Type := list event → event → option exn.

(** Attempt the operations [todo] in order, after [history]: the events
    performed, and the exception of the first operation that fails. *)
Fixpoint perform_all (w : world) (history : list event) (todo : list event)
  : list event * result unit :=
  match todo with
  | [] => ([], Ok ())
  | ev :: todo' =>
      match w history ev with
      | Some e => ([], Raise e)
      | None =>
          let '(evs, r) := perform_all w (history ++ [ev]) todo' in
          (ev :: evs, r)
      end
  end.

(** [write_outputs], run after the events of [history]: the events it
    performs, and the exception that ends it early, if any:
    [editor_aliases[editor]] raises [KeyError], and [write_text] and
    [print] raise what the world makes them raise. *)
Fixpoint write_outputs (w : world) (history : list event)
    (outputs : list (str * str))
    (editor_aliases : list (str * path)) (dry_run : bool)
  : list event * result unit :=
  match outputs with
  | [] => ([], Ok ())
  | (editor, content) :: outputs' =>
      match dict_get editor editor_aliases with
      | None => ([], Raise (KeyError editor))
      | Some dest_path =>
          let todo :=
            if dry_run then
              [Ev_print (codes "----- " ++ dest_path ++ codes " (editor=" ++ editor
                      ++ codes ") -----" ++ [NL] ++ content ++ [NL])]
            else
              [Ev_write_text dest_path content; Ev_print (codes "Wrote " ++ dest_path)] in
          match perform_all w history todo with
          | (evs, Raise e) => (evs, Raise e)
          | (evs, Ok _) =>
              let '(evs', r) :=
                write_outputs w (history ++ evs) outputs' editor_aliases dry_run in
              (evs ++ evs', r)
          end
      end
  end.

(** How [main] ends. *)
Inductive outcome : Type :=
  | Returned
  | SystemExit (msg : str)
  | Uncaught (e : exn).

(** What opening and reading the base file gives: [open] raises (a
    directory, no permission, a file removed meanwhile), or the file
    yields the raw lines [fh] and then either ends or raises [failure]
    (bytes that are not UTF-8, a read error). *)
Inductive file_content : Type :=
  | Open_fails (e : exn)
  | Lines (fh : list str) (failure : option exn).

(** What [args.base] is on disk: [exists()] raises, returns [False], or
    returns [True]. *)
Inductive base_state : Type :=
  | Stat_fails (e : exn)
  | Missing
  | Present (content : file_content).

(** [parse_base_file(args.base)] on an existing path: [parse_base_file] on
    the lines the file yields; the failure of the file, if any, is raised
    when the loop asks for the line after the last one. *)
Definition parse_base_path (content : file_content)
  : result (gmap str (list str)) :=
  match content with
  | Open_fails e => Raise e
  | Lines fh failure =>
      buckets ← parse_base_file fh;
      match failure with
      | Some e => Raise e
      | None => Ok buckets
      end
  end.

(** [main], from the merged [editor_aliases] on. [base] is [args.base],
    [base_file] what that path is on disk. The result is the trace of
    events and the way [main] ends. *)
Definition main (w : world) (base : path) (base_file : base_state)
    (editor_aliases : list (str * path)) (dry_run : bool)
  : list event * outcome :=
  match base_file with
  | Stat_fails e => ([], Uncaught e)
  | Missing => ([], SystemExit (codes "Base file '" ++ base ++ codes "' not found."))
  | Present content =>
      match parse_base_path content with
      | Raise (ValueError msg) => ([], SystemExit msg)
      | Raise e => ([], Uncaught e)
      | Ok buckets =>
          let outputs := build_outputs buckets editor_aliases in
          match write_outputs w [] outputs editor_aliases dry_run with
          | (evs, Ok _) => (evs, Returned)
          | (evs, Raise e) => (evs, Uncaught e)
          end
      end
  end.

(** ** Vocabulary of the specification *)

(** The line the parser works on: the raw line without its line end. *)
Definition line_of (raw : str) : str := rstrip_chars [NL] raw.

(** Open directive, close directive, content line. *)
Definition is_open (line : str) : bool := startswith (codes "::only ") line.
Definition is_close (line : str) : bool := startswith (codes "::end") line.
Definition is_content (line : str) : bool := negb (is_open line) && negb (is_close line).

(** A malformed directive: an open directive whose identifier list, split
    on commas and trimmed, has no non-empty entry. *)
Definition malformed (line : str) : bool :=
  is_open line &&
  bool_decide (Forall (λ e, strip e = [])
                 (split 44 (drop (length (codes "::only ")) line))).

(** The text composed for one target from a bucket map, in the words of
    the specification: shared lines, then the target's own lines, joined
    by newlines, trailing whitespace stripped, one newline appended. *)
Definition composed (b : gmap str (list str)) (target : str) : str :=
  rstrip (join [NL] (default [] (b !! ALL) ++ default [] (b !! target))) ++ [NL].

(** The raw lines of a file whose lines are [lines], each ended by a
    newline; [final_newline] tells whether the last one is. *)
Fixpoint raw_lines (final_newline : bool) (lines : list str) : list str :=
  match lines with
  | [] => []
  | [l] => [if final_newline then l ++ [NL] else l]
  | l :: ls => (l ++ [NL]) :: raw_lines final_newline ls
  end.

(** The four ways an iteration can go. *)
Inductive step_view (st : state) (raw : str) : result state → Prop :=
  | view_malformed :
      malformed (line_of raw) = true →
      step_view st raw (Raise (ValueError (no_editors_msg (line_of raw))))
  | view_open :
      is_open (line_of raw) = true → editors_of (line_of raw) ≠ ∅ →
      step_view st raw
        (Ok (State (set_fold setdefault (buckets st) (editors_of (line_of raw)))
                   (editors_of (line_of raw))))
  | view_close :
      is_close (line_of raw) = true →
      step_view st raw (Ok (State (buckets st) {[ALL]}))
  | view_content :
      is_content (line_of raw) = true →
      step_view st raw
        (Ok (State (set_fold (setdefault_append (line_of raw)) (buckets st)
                      (current_editors st))
                   (current_editors st))).

(** The identifiers named by the open directives of a sequence of raw lines. *)
Definition mentioned (fh : list str) : gset str :=
  ⋃ ((λ raw, if is_open (line_of raw) then editors_of (line_of raw) else ∅) <$> fh).

(** The shared bucket exists, and so does the bucket of each active editor. *)
Definition scoped (st : state) : Prop :=
  ALL ∈ dom (buckets st) ∧ current_editors st ⊆ dom (buckets st).

(** Whether a text ends in a whitespace character. *)
Definition ends_in_space (s : str) : bool :=
  match last s with
  | Some c => isspace c
  | None => false
  end.

(** The line of the first malformed directive among the raw lines. *)
Fixpoint first_malformed (fh : list str) : option str :=
  match fh with
  | [] => None
  | raw :: fh' =>
      if malformed (line_of raw) then Some (line_of raw) else first_malformed fh'
  end.

(** The document of Example 1, as the raw lines of a file. *)
Definition example1 (final_newline : bool) : list str :=
  raw_lines final_newline
    [codes "A"; codes "::only x"; codes "B"; codes "::end"; codes "C"].

Definition example1_buckets : gmap str (list str) :=
  <[codes "x" := [codes "B"]]> {[ALL := [codes "A"; codes "C"]]}.

(** The state after [::only x], [B], [::only y]. *)
Definition after_two_opens : state :=
  State (<[codes "y" := []]> (<[codes "x" := [codes "B"]]> {[ALL := []]}))
        {[codes "y"]}.

(** ** Command-line mappings: [parse_map_args] and the merged registry *)

(** [s.split(sep, 1)] for a separator of one character: the text cut at
    the first occurrence of [sep], or the text alone when there is none. *)
Fixpoint split_once (sep : N) (s : str) : list str :=
  match s with
  | [] => [[]]
  | c :: s' =>
      if decide (c = sep) then [[]; s']
      else match split_once sep s' with
           | [] => [[c]]
           | piece :: pieces => (c :: piece) :: pieces
           end
  end.

Definition invalid_map_msg (mapping : str) : str :=
  codes "Invalid --map value '" ++ mapping ++ codes "'. Expect EDITOR:PATH.".

(** One iteration of [for mapping in map_args]. Unpacking anything but two
    pieces raises [ValueError], as does an empty editor; the handler turns
    both into [ArgumentTypeError]. [expanduser p] stands for
    [Path(p).expanduser()]: the text of the path it returns, which depends
    on the platform and on the user's home directory, or the exception it
    raises ([RuntimeError] when a home directory cannot be resolved); the
    call is outside the [try], so its exception is not converted. *)
Definition map_step (expanduser : str → result path) (aliases : list (str * path))
    (mapping : str) : result (list (str * path)) :=
  match split_once 58 mapping with
  | [editor; p] =>
      let editor := strip editor in
      if decide (editor = []) then Raise (ArgumentTypeError (invalid_map_msg mapping))
      else dest ← expanduser p; Ok (dict_set editor dest aliases)
  | _ => Raise (ArgumentTypeError (invalid_map_msg mapping))
  end.

Fixpoint map_loop (expanduser : str → result path) (aliases : list (str * path))
    (map_args : list str) : result (list (str * path)) :=
  match map_args with
  | [] => Ok aliases
  | mapping :: map_args' =>
      aliases' ← map_step expanduser aliases mapping;
      map_loop expanduser aliases' map_args'
  end.

(** [parse_map_args]; [map_args] is [None] when no [--map] was given. *)
Definition parse_map_args (expanduser : str → result path)
    (map_args : option (list str)) : result (list (str * path)) :=
  match map_args with
  | None | Some [] => Ok []
  | Some mappings => map_loop expanduser [] mappings
  end.

Definition DEFAULT_ALIAS : list (str * path) :=
  [(codes "windsurf", codes ".windsurfrules");
   (codes "codex", codes "AGENTS.md");
   (codes "cusror", codes ".cusrorrules.mdc")].

(** [d1 | d2]: a copy of [d1] updated with the items of [d2], in order. *)
Definition dict_merge {V} (d1 d2 : list (str * V)) : list (str * V) :=
  foldl (λ d '(k, v), dict_set k v d) d1 d2.

(** [main], from the parsed arguments on: [base] is [args.base], [maps] is
    [args.maps], [dry_run] is [args.dry_run]. The registry is built, and
    [parse_map_args] may raise, before the base file is looked at; nothing
    catches what it raises. *)
Definition main_from_args (w : world) (expanduser : str → result path) (base : path)
    (maps : option (list str)) (dry_run : bool) (base_file : base_state)
  : list event * outcome :=
  match parse_map_args expanduser maps with
  | Raise e => ([], Uncaught e)
  | Ok overrides =>
      main w base base_file (dict_merge DEFAULT_ALIAS overrides) dry_run
  end.

(** ** Further vocabulary *)

(** The content lines of a sequence of raw lines, each with the set of
    identifiers that is active when the parser reaches it, starting from
    the active set [cur]. *)
Fixpoint scopes (cur : gset str) (fh : list str) : list (gset str * str) :=
  match fh with
  | [] => []
  | raw :: fh' =>
      if is_open (line_of raw) then scopes (editors_of (line_of raw)) fh'
      else if is_close (line_of raw) then scopes {[ALL]} fh'
      else (cur, line_of raw) :: scopes cur fh'
  end.

(** The lines, among scoped lines, in whose scope [k] is. *)
Definition lines_for (k : str) (scoped_lines : list (gset str * str)) : list str :=
  (filter (λ p, k ∈ p.1) scoped_lines).*2.

(** The text before the first occurrence of [sep]. *)
Fixpoint take_while_not (sep : N) (s : str) : str :=
  match s with
  | [] => []
  | c :: s' => if decide (c = sep) then [] else c :: take_while_not sep s'
  end.

(** The text after the first occurrence of [sep]; empty when there is none. *)
Fixpoint after_first (sep : N) (s : str) : str :=
  match s with
  | [] => []
  | c :: s' => if decide (c = sep) then s' else after_first sep s'
  end.

(** A [--map] value that is refused: it has no colon, or the text before
    its first colon is blank. *)
Definition bad_mapping (mapping : str) : bool :=
  bool_decide (58 ∉ mapping) ||
  bool_decide (strip (take_while_not 58 mapping) = []).

(** What holds of every key [parse_map_args] makes. *)
Definition map_key (k : str) : Prop := k ≠ [] ∧ strip k = k ∧ 58 ∉ k.

(** The exception of the first [--map] value that fails: a refused value
    gives [ArgumentTypeError] with its text, a value whose destination
    [Path(..).expanduser()] rejects gives what that call raises. *)
Fixpoint first_map_failure (expanduser : str → result path) (map_args : list str)
  : option exn :=
  match map_args with
  | [] => None
  | mapping :: map_args' =>
      if bad_mapping mapping then Some (ArgumentTypeError (invalid_map_msg mapping))
      else match expanduser (after_first 58 mapping) with
           | Raise e => Some e
           | Ok _ => first_map_failure expanduser map_args'
           end
  end.

(** A world in which no operation fails. *)
Definition calm (w : world) : Prop := ∀ history ev, w history ev = None.

(** The world of a run in which writing to [dest] fails with [e] and
    every other operation succeeds. *)
Definition failing_at (dest : path) (e : exn) : world :=
  λ _ ev,
    match ev with
    | Ev_write_text d _ => if decide (d = dest) then Some e else None
    | Ev_print _ => None
    end.

(** The error of a write below a directory that is not there. *)
Definition no_such_dir : exn :=
  OtherError (codes "FileNotFoundError") (codes "No such file or directory").

(** How [main] ends after [write_outputs]. *)
Definition ended (r : list event * result unit) : list event * outcome :=
  (r.1, match r.2 with Ok _ => Returned | Raise e => Uncaught e end).

(** What [main] does with an exception of [parse_base_file]. *)
Definition handled (e : exn) : outcome :=
  match e with
  | ValueError msg => SystemExit msg
  | _ => Uncaught e
  end.

(** A text occurs in another. *)
Definition occurs_in (l t : str) : Prop := ∃ p s, t = p ++ l ++ s.

(** What [write_outputs] does for one entry of the registry when it is not
    a dry run, and when it is. *)
Definition write_events (b : gmap str (list str)) (entry : str * path) : list event :=
  [Ev_write_text entry.2 (composed b entry.1);
   Ev_print (codes "Wrote " ++ entry.2)].

Definition preview_events (b : gmap str (list str)) (entry : str * path) : list event :=
  [Ev_print (codes "----- " ++ entry.2 ++ codes " (editor=" ++ entry.1
             ++ codes ") -----" ++ [NL] ++ composed b entry.1 ++ [NL])].

(** The entry of the output record for an entry of the registry. *)
Definition output_entry (b : gmap str (list str)) (entry : str * path) : str * str :=
  (entry.1, composed b entry.1).

Definition is_write (ev : event) : bool :=
  match ev with
  | Ev_write_text _ _ => true
  | Ev_print _ => false
  end.

(** * Properties *)

(** ** The bucket map under the two loops over a set of editors *)

Section Buckets.
Implicit Types (b : gmap str (list str)) (X : gset str) (k ed line : str).

Lemma setdefault_lookup ed b k :
  setdefault ed b !! k =
  if decide (k = ed) then Some (default [] (b !! k)) else b !! k.
Proof.
  unfold setdefault. case_decide as Hk.
  - subst k. destruct (b !! ed) as [l|] eqn:E; simpl.
    + done.
    + by rewrite lookup_insert_eq.
  - destruct (b !! ed); [done|]. by rewrite lookup_insert_ne.
Qed.

Lemma setdefault_append_lookup line ed b k :
  setdefault_append line ed b !! k =
  if decide (k = ed) then Some (default [] (b !! k) ++ [line]) else b !! k.
Proof.
  unfold setdefault_append. case_decide as Hk.
  - subst k. rewrite lookup_alter_eq, setdefault_lookup.
    by rewrite decide_True.
  - rewrite lookup_alter_ne by done. rewrite setdefault_lookup.
    by rewrite decide_False.
Qed.

(** [for ed in editors: buckets.setdefault(ed, [])] *)
Lemma fold_setdefault_lookup b X k :
  set_fold setdefault b X !! k =
  if decide (k ∈ X) then Some (default [] (b !! k)) else b !! k.
Proof.
  revert k.
  set (P := λ (r : gmap str (list str)) (Y : gset str), ∀ k, r !! k =
              if decide (k ∈ Y) then Some (default [] (b !! k)) else b !! k).
  change (P (set_fold setdefault b X) X).
  apply set_fold_ind_L; unfold P; clear P.
  - intros k. by rewrite decide_False by set_solver.
  - intros x Y r Hx IH k. rewrite setdefault_lookup, IH.
    destruct (decide (k = x)) as [->|Hne].
    + rewrite decide_False by done. rewrite decide_True by set_solver.
      by destruct (b !! x).
    + destruct (decide (k ∈ Y)) as [HY|HY].
      * by rewrite decide_True by set_solver.
      * rewrite decide_False; [done|].
        rewrite elem_of_union, elem_of_singleton. tauto.
Qed.

(** [for ed in current_editors: buckets.setdefault(ed, []).append(line)] *)
Lemma fold_append_lookup line b X k :
  set_fold (setdefault_append line) b X !! k =
  if decide (k ∈ X) then Some (default [] (b !! k) ++ [line]) else b !! k.
Proof.
  revert k.
  set (P := λ (r : gmap str (list str)) (Y : gset str), ∀ k, r !! k =
              if decide (k ∈ Y) then Some (default [] (b !! k) ++ [line])
              else b !! k).
  change (P (set_fold (setdefault_append line) b X) X).
  apply set_fold_ind_L; unfold P; clear P.
  - intros k. by rewrite decide_False by set_solver.
  - intros x Y r Hx IH k. rewrite setdefault_append_lookup, IH.
    destruct (decide (k = x)) as [->|Hne].
    + rewrite decide_False by done. by rewrite decide_True by set_solver.
    + destruct (decide (k ∈ Y)) as [HY|HY].
      * by rewrite decide_True by set_solver.
      * rewrite decide_False; [done|].
        rewrite elem_of_union, elem_of_singleton. tauto.
Qed.

(** Looping over the shared identifier alone, whose bucket exists, adds
    the line to that bucket. *)
Lemma fold_append_shared line b l :
  b !! ALL = Some l →
  set_fold (setdefault_append line) b ({[ALL]} : gset str) = <[ALL := l ++ [line]]> b.
Proof.
  intros Hl. apply map_eq. intros k. rewrite fold_append_lookup.
  destruct (decide (k = ALL)) as [->|Hne].
  - rewrite decide_True by set_solver. by rewrite Hl, lookup_insert_eq.
  - rewrite decide_False by set_solver. by rewrite lookup_insert_ne.
Qed.
End Buckets.

(** ** Lines and directives *)

Lemma startswith_true p s : startswith p s = true ↔ ∃ k, s = p ++ k.
Proof. unfold startswith. by rewrite bool_decide_eq_true. Qed.

Lemma startswith_app p k : startswith p (p ++ k) = true.
Proof. apply startswith_true. by exists k. Qed.

Lemma codes_only : codes "::only " = [58; 58; 111; 110; 108; 121; 32].
Proof. reflexivity. Qed.

Lemma codes_end : codes "::end" = [58; 58; 101; 110; 100].
Proof. reflexivity. Qed.

(** No line is both an open and a close directive. *)
Lemma open_not_close line : is_open line = true → is_close line = false.
Proof.
  unfold is_open, is_close. intros [k ->]%startswith_true.
  apply bool_decide_eq_false. intros [k' Hk'].
  rewrite codes_only, codes_end in Hk'. simpl in Hk'. congruence.
Qed.

Lemma content_not_open line : is_content line = true → is_open line = false.
Proof. unfold is_content. by intros [?%negb_true_iff _]%andb_true_iff. Qed.

Lemma content_not_close line : is_content line = true → is_close line = false.
Proof. unfold is_content. by intros [_ ?%negb_true_iff]%andb_true_iff. Qed.

(** The set the code builds is empty exactly when every piece between
    commas is blank. *)
Lemma editors_of_empty line :
  editors_of line = ∅ ↔
  Forall (λ e, strip e = []) (split 44 (drop (length (codes "::only ")) line)).
Proof.
  unfold editors_of. rewrite Forall_forall. split.
  - intros He e Hin. destruct (decide (strip e = [])) as [|Hne]; [done|].
    exfalso. apply (not_elem_of_empty (C:=gset str) (strip e)). rewrite <- He.
    apply elem_of_list_to_set, list_elem_of_fmap. exists e. split; [done|].
    by apply list_elem_of_filter.
  - intros Hall. apply set_eq. intros x. split; [|by intros ?%not_elem_of_empty].
    intros (e & -> & [Hne Hin]%list_elem_of_filter)%elem_of_list_to_set%list_elem_of_fmap.
    by specialize (Hall e Hin).
Qed.

Lemma malformed_true line :
  malformed line = true ↔ is_open line = true ∧ editors_of line = ∅.
Proof.
  unfold malformed. by rewrite andb_true_iff, bool_decide_eq_true, editors_of_empty.
Qed.

(** ** One step of the parser, by kind of line *)

Section Step.
Implicit Types (st : state) (raw : str).

Lemma step_open st raw :
  is_open (line_of raw) = true → editors_of (line_of raw) ≠ ∅ →
  step st raw =
  Ok (State (set_fold setdefault (buckets st) (editors_of (line_of raw)))
            (editors_of (line_of raw))).
Proof.
  intros Ho Hne. unfold step. fold (line_of raw). fold (is_open (line_of raw)).
  rewrite Ho. by rewrite decide_False.
Qed.

Lemma step_malformed st raw :
  malformed (line_of raw) = true →
  step st raw = Raise (ValueError (no_editors_msg (line_of raw))).
Proof.
  intros [Ho He]%malformed_true.
  unfold step. fold (line_of raw). fold (is_open (line_of raw)).
  rewrite Ho. by rewrite decide_True.
Qed.

Lemma step_close st raw :
  is_close (line_of raw) = true → step st raw = Ok (State (buckets st) {[ALL]}).
Proof.
  intros Hc. unfold step. fold (line_of raw).
  fold (is_open (line_of raw)). fold (is_close (line_of raw)).
  destruct (is_open (line_of raw)) eqn:Ho.
  - apply open_not_close in Ho. congruence.
  - by rewrite Hc.
Qed.

Lemma step_content st raw :
  is_content (line_of raw) = true →
  step st raw =
  Ok (State (set_fold (setdefault_append (line_of raw)) (buckets st)
               (current_editors st))
            (current_editors st)).
Proof.
  intros Hc. unfold step. fold (line_of raw).
  fold (is_open (line_of raw)). fold (is_close (line_of raw)).
  by rewrite (content_not_open _ Hc), (content_not_close _ Hc).
Qed.

(** The step raises exactly on a malformed open directive. *)
Lemma step_raises st raw e :
  step st raw = Raise e →
  malformed (line_of raw) = true ∧ e = ValueError (no_editors_msg (line_of raw)).
Proof.
  rewrite malformed_true. unfold step. fold (line_of raw).
  fold (is_open (line_of raw)). fold (is_close (line_of raw)).
  destruct (is_open (line_of raw)); simpl.
  - case_decide as He; [|done]. by intros [= <-].
  - by destruct (is_close (line_of raw)).
Qed.

Lemma step_ok_not_malformed st raw st' :
  step st raw = Ok st' → malformed (line_of raw) = false.
Proof.
  intros Hs. destruct (malformed (line_of raw)) eqn:Hm; [|done].
  rewrite (step_malformed st raw Hm) in Hs. done.
Qed.
End Step.

(** ** The loop *)

Lemma parse_loop_app st fh1 fh2 :
  parse_loop st (fh1 ++ fh2) = st' ← parse_loop st fh1; parse_loop st' fh2.
Proof.
  revert st. induction fh1 as [|raw fh1 IH]; intros st; simpl; [done|].
  destruct (step st raw) as [st1|e]; simpl; [apply IH|done].
Qed.

Lemma parse_loop_snoc st fh raw :
  parse_loop st (fh ++ [raw]) = st' ← parse_loop st fh; step st' raw.
Proof.
  rewrite parse_loop_app. destruct (parse_loop st fh) as [st1|e]; simpl; [|done].
  by destruct (step st1 raw).
Qed.

(** A successful run over a sequence is successful over each prefix. *)
Lemma parse_loop_prefix st fh1 fh2 st2 :
  parse_loop st (fh1 ++ fh2) = Ok st2 → ∃ st1, parse_loop st fh1 = Ok st1.
Proof.
  rewrite parse_loop_app. destruct (parse_loop st fh1) as [st1|e]; simpl; [eauto|done].
Qed.

Lemma step_viewP st raw : step_view st raw (step st raw).
Proof.
  destruct (is_open (line_of raw)) eqn:Ho.
  - destruct (decide (editors_of (line_of raw) = ∅)) as [He|He].
    + assert (malformed (line_of raw) = true) as Hm.
      { by apply malformed_true. }
      rewrite (step_malformed st raw Hm). by constructor.
    + rewrite (step_open st raw Ho He). by constructor.
  - destruct (is_close (line_of raw)) eqn:Hc.
    + rewrite (step_close st raw Hc). by constructor.
    + assert (is_content (line_of raw) = true) as Hn.
      { unfold is_content. by rewrite Ho, Hc. }
      rewrite (step_content st raw Hn). by constructor.
Qed.

(** ** Which identifiers have a bucket *)

Lemma mentioned_app fh1 fh2 : mentioned (fh1 ++ fh2) = mentioned fh1 ∪ mentioned fh2.
Proof.
  unfold mentioned. rewrite fmap_app. apply leibniz_equiv, union_list_app.
Qed.

Lemma elem_of_mentioned e fh :
  e ∈ mentioned fh ↔
  ∃ raw, raw ∈ fh ∧ is_open (line_of raw) = true ∧ e ∈ editors_of (line_of raw).
Proof.
  unfold mentioned. rewrite elem_of_union_list. split.
  - intros (X & HX & He). apply list_elem_of_fmap in HX as (raw & -> & Hraw).
    exists raw. destruct (is_open (line_of raw)); [done|].
    by apply not_elem_of_empty in He.
  - intros (raw & Hraw & Ho & He).
    exists (editors_of (line_of raw)). split; [|done].
    apply list_elem_of_fmap. exists raw. by rewrite Ho.
Qed.

Lemma dom_fold_setdefault (b : gmap str (list str)) (X : gset str) :
  dom (set_fold setdefault b X) = dom b ∪ X.
Proof.
  apply set_eq. intros k.
  rewrite elem_of_union, !elem_of_dom, fold_setdefault_lookup.
  case_decide as Hk; [|tauto]. split; [tauto|]. intros _. by eexists.
Qed.

Lemma dom_fold_append (line : str) (b : gmap str (list str)) (X : gset str) :
  dom (set_fold (setdefault_append line) b X) = dom b ∪ X.
Proof.
  apply set_eq. intros k.
  rewrite elem_of_union, !elem_of_dom, fold_append_lookup.
  case_decide as Hk; [|tauto]. split; [tauto|]. intros _. by eexists.
Qed.

Lemma scoped_init : scoped init.
Proof. unfold scoped, init. simpl. rewrite dom_singleton_L. set_solver. Qed.

Lemma step_dom st raw st' :
  step st raw = Ok st' → scoped st →
  dom (buckets st') = dom (buckets st) ∪ mentioned [raw] ∧ scoped st'.
Proof.
  intros Hs [HALL Hsc]. unfold scoped.
  assert (mentioned [raw] =
          if is_open (line_of raw) then editors_of (line_of raw) else ∅) as ->.
  { unfold mentioned. simpl. apply leibniz_equiv, (right_id ∅ (∪)). }
  destruct (step_viewP st raw) as [Hm|Ho He|Hc|Hn]; simplify_eq; simpl.
  - rewrite Ho, dom_fold_setdefault. set_solver.
  - destruct (is_open (line_of raw)) eqn:Ho.
    + apply open_not_close in Ho. congruence.
    + set_solver.
  - rewrite (content_not_open _ Hn), dom_fold_append. set_solver.
Qed.

Lemma parse_loop_dom fh : ∀ st st',
  parse_loop st fh = Ok st' → scoped st →
  dom (buckets st') = dom (buckets st) ∪ mentioned fh ∧ scoped st'.
Proof.
  induction fh as [|raw fh IH]; intros st st' Hp Hsc; simpl in Hp.
  - simplify_eq. split; [|done]. unfold mentioned. simpl. set_solver.
  - destruct (step st raw) as [st1|e] eqn:Hs; simpl in Hp; [|done].
    destruct (step_dom _ _ _ Hs Hsc) as [Hd1 Hsc1].
    destruct (IH _ _ Hp Hsc1) as [Hd2 Hsc2]. split; [|done].
    rewrite Hd2, Hd1. change (raw :: fh) with ([raw] ++ fh).
    rewrite mentioned_app. set_solver.
Qed.

(** ** Runs of content lines *)

(** A run of content lines leaves the active set alone and appends the
    lines, in order, to the bucket of each active editor and to no other. *)
Lemma parse_loop_content cs : ∀ st,
  Forall (λ raw, is_content (line_of raw) = true) cs →
  current_editors st ⊆ dom (buckets st) →
  ∃ b', parse_loop st cs = Ok (State b' (current_editors st)) ∧
        ∀ k, b' !! k =
             if decide (k ∈ current_editors st)
             then (λ l, l ++ (line_of <$> cs)) <$> buckets st !! k
             else buckets st !! k.
Proof.
  induction cs as [|raw cs IH]; intros [b cur] Hcs Hsc; simpl in *.
  - exists b. split; [done|]. intros k. case_decide as Hk; [|done].
    destruct (b !! k); simpl; [|done]. by rewrite app_nil_r.
  - apply Forall_cons in Hcs as [Hraw Hcs].
    rewrite (step_content _ _ Hraw). simpl.
    destruct (IH (State (set_fold (setdefault_append (line_of raw)) b cur) cur) Hcs)
      as (b' & Hp & Hb'); simpl in *.
    { rewrite dom_fold_append. set_solver. }
    exists b'. split; [done|]. intros k. rewrite Hb', fold_append_lookup.
    case_decide as Hk; [|done].
    assert (is_Some (b !! k)) as [l Hl] by (apply elem_of_dom; set_solver).
    rewrite Hl. simpl. by rewrite <- app_assoc.
Qed.

(** Buckets only grow, and only at their end. *)
Lemma step_grows st raw st' k l :
  step st raw = Ok st' → buckets st !! k = Some l →
  ∃ l', buckets st' !! k = Some (l ++ l').
Proof.
  intros Hs Hl.
  destruct (step_viewP st raw) as [Hm|Ho He|Hc|Hn]; simplify_eq; simpl.
  - exists []. rewrite fold_setdefault_lookup, Hl, app_nil_r. by case_decide.
  - exists []. by rewrite app_nil_r.
  - rewrite fold_append_lookup, Hl. case_decide.
    + by exists [line_of raw].
    + exists []. by rewrite app_nil_r.
Qed.

Lemma parse_loop_grows fh : ∀ st st' k l,
  parse_loop st fh = Ok st' → buckets st !! k = Some l →
  ∃ l', buckets st' !! k = Some (l ++ l').
Proof.
  induction fh as [|raw fh IH]; intros st st' k l Hp Hl; simpl in Hp.
  - simplify_eq. exists []. by rewrite app_nil_r.
  - destruct (step st raw) as [st1|e] eqn:Hs; simpl in Hp; [|done].
    destruct (step_grows _ _ _ _ _ Hs Hl) as [l1 Hl1].
    destruct (IH _ _ _ _ Hp Hl1) as [l2 Hl2].
    exists (l1 ++ l2). by rewrite app_assoc.
Qed.

(** ** Stripping *)

Lemma dropwhile_split p s :
  ∃ w, s = w ++ dropwhile p s ∧ Forall (λ c, p c = true) w ∧
       match dropwhile p s with [] => True | c :: _ => p c = false end.
Proof.
  induction s as [|c s (w & Hw & Hall & Hhd)]; simpl.
  - exists []. by repeat split.
  - destruct (p c) eqn:Hc.
    + exists (c :: w). split; [by rewrite Hw at 1|]. split; [by constructor|done].
    + exists []. split; [done|]. split; [constructor|]. done.
Qed.

(** [rstrip] removes a suffix of whitespace, and what is left does not end
    in whitespace. *)
Lemma rstrip_spec s :
  ∃ w, s = rstrip s ++ w ∧ Forall (λ c, isspace c = true) w ∧
       ends_in_space (rstrip s) = false.
Proof.
  unfold rstrip, ends_in_space.
  destruct (dropwhile_split isspace (rev s)) as (w & Hw & Hall & Hhd).
  exists (rev w). split; [|split].
  - rewrite <- rev_app_distr, <- Hw. by rewrite rev_involutive.
  - by apply Forall_rev.
  - destruct (dropwhile isspace (rev s)) as [|c t]; simpl; [done|].
    by rewrite last_snoc.
Qed.

(** A text that does not end in whitespace is left as it is. *)
Lemma rstrip_id s : ends_in_space s = false → rstrip s = s.
Proof.
  unfold rstrip, ends_in_space.
  destruct s as [|c s _] using rev_ind; [done|].
  rewrite last_snoc. intros Hc. rewrite rev_app_distr. simpl. rewrite Hc.
  simpl. by rewrite rev_involutive.
Qed.

Lemma rstrip_idemp s : rstrip (rstrip s) = rstrip s.
Proof. destruct (rstrip_spec s) as (w & _ & _ & He). by apply rstrip_id. Qed.

(** ** The composer *)

Section Dict.
Context {V : Type}.
Implicit Types (d : list (str * V)) (k : str) (v : V).

Lemma dict_get_set k k' v d :
  dict_get k (dict_set k' v d) = if decide (k = k') then Some v else dict_get k d.
Proof.
  induction d as [|[k0 v0] d IH]; simpl.
  - destruct (decide (k' = k)), (decide (k = k')); congruence.
  - destruct (decide (k0 = k')) as [->|Hk0]; simpl.
    + destruct (decide (k' = k)), (decide (k = k')); congruence.
    + rewrite IH. destruct (decide (k0 = k)), (decide (k = k')); congruence.
Qed.

Lemma dict_get_is_Some k d : is_Some (dict_get k d) ↔ k ∈ d.*1.
Proof.
  induction d as [|[k0 v0] d IH]; simpl.
  - split; [by intros [? ?]|by intros ?%elem_of_nil].
  - rewrite elem_of_cons. destruct (decide (k0 = k)) as [->|Hne].
    + split; [by left|by eexists].
    + rewrite IH. split; [by right|]. intros [?|?]; [congruence|done].
Qed.
End Dict.

(** The loop of [build_outputs], started from any [outputs]. *)
Lemma build_loop_lookup (b : gmap str (list str)) (al : list (str * path)) :
  ∀ (outputs : list (str * str)) T,
  dict_get T
    (foldl (λ outputs '(editor, dest),
              let lines := default [] (b !! ALL) ++ default [] (b !! editor) in
              dict_set editor (rstrip (join [NL] lines) ++ [NL]) outputs)
           outputs al) =
  if decide (T ∈ al.*1) then Some (composed b T) else dict_get T outputs.
Proof.
  induction al as [|[editor dest] al IH]; intros outputs T.
  - rewrite decide_False; [done|]. apply not_elem_of_nil.
  - cbn [foldl]. rewrite IH, fmap_cons. cbn [fst].
    destruct (decide (T ∈ al.*1)) as [Hin|Hnin].
    + rewrite decide_True; [done|]. by apply elem_of_cons; right.
    + rewrite dict_get_set. destruct (decide (T = editor)) as [->|Hne].
      * rewrite decide_True; [done|]. by apply elem_of_cons; left.
      * rewrite decide_False; [done|]. rewrite elem_of_cons. tauto.
Qed.

(** The output record has an entry for exactly the registry's targets,
    and the entry is the composed text. *)
Lemma build_outputs_lookup (b : gmap str (list str)) (al : list (str * path)) T :
  dict_get T (build_outputs b al) =
  if decide (T ∈ al.*1) then Some (composed b T) else None.
Proof. unfold build_outputs. by rewrite build_loop_lookup. Qed.

(** ** The first malformed directive *)

Lemma first_malformed_Some fh line :
  first_malformed fh = Some line ↔
  ∃ pre raw post, fh = pre ++ raw :: post ∧ line = line_of raw ∧
    malformed (line_of raw) = true ∧
    Forall (λ r, malformed (line_of r) = false) pre.
Proof.
  revert line. induction fh as [|raw fh IH]; intros line; simpl.
  - split; [done|]. intros (pre & r & post & H & _). by destruct pre.
  - destruct (malformed (line_of raw)) eqn:Hm.
    + split.
      * intros [= <-]. exists [], raw, fh. by repeat split.
      * intros (pre & r & post & H & -> & Hr & Hpre).
        destruct pre as [|r0 pre]; simpl in H; simplify_eq; [done|].
        apply Forall_cons in Hpre as [Hr0 _]. congruence.
    + rewrite IH. split.
      * intros (pre & r & post & -> & -> & Hr & Hpre).
        exists (raw :: pre), r, post. repeat split; [done|]. by constructor.
      * intros (pre & r & post & H & -> & Hr & Hpre).
        destruct pre as [|r0 pre]; simpl in H; simplify_eq; [congruence|].
        apply Forall_cons in Hpre as [_ Hpre]. by exists pre, r, post.
Qed.

Lemma first_malformed_None fh :
  first_malformed fh = None ↔ Forall (λ r, malformed (line_of r) = false) fh.
Proof.
  induction fh as [|raw fh IH]; simpl; [by split|].
  rewrite Forall_cons, <- IH. destruct (malformed (line_of raw)); split; try done.
  - by intros [? _].
  - by intros [_ ?].
Qed.

(** The loop fails at the first malformed directive, whatever the state,
    and succeeds when there is none. *)
Lemma parse_loop_first_malformed fh : ∀ st,
  match first_malformed fh with
  | Some line => parse_loop st fh = Raise (ValueError (no_editors_msg line))
  | None => ∃ st', parse_loop st fh = Ok st'
  end.
Proof.
  induction fh as [|raw fh IH]; intros st; simpl; [by eexists|].
  destruct (malformed (line_of raw)) eqn:Hm.
  - by rewrite (step_malformed st raw Hm).
  - destruct (step st raw) as [st1|e] eqn:Hs; simpl.
    + apply IH.
    + apply step_raises in Hs as [? _]. congruence.
Qed.

(** * The claims *)

(** ** C1: Example 1 *)

(** C1, as stated, fails: for the document [A], [::only x], [B], [::end],
    [C] and the registry {x, y}, the output composed for x is not the text
    "A\nB\nC\n". *)
Lemma C1_counterexample :
  parse_base_file (example1 true) = Ok example1_buckets ∧
  dict_get (codes "x")
    (build_outputs example1_buckets
       [(codes "x", codes "x.md"); (codes "y", codes "y.md")])
  ≠ Some (codes "A" ++ [NL] ++ codes "B" ++ [NL] ++ codes "C" ++ [NL]).
Proof. split; [by vm_compute|]. vm_compute. discriminate. Qed.

(** C1, amended: for the document [A], [::only x], [B], [::end], [C]
    (with or without a final newline) and the registry {x, y} (whatever
    the destinations), the parser yields the shared bucket [A; C] and the
    bucket [B] for x, and the composer yields "A\nC\nB\n" for x (shared
    lines first, then x's own) and "A\nC\n" for y. *)
Theorem C1_example1_outputs (final_newline : bool) (dest_x dest_y : path) :
  parse_base_file (example1 final_newline) = Ok example1_buckets ∧
  build_outputs example1_buckets [(codes "x", dest_x); (codes "y", dest_y)] =
  [(codes "x", codes "A" ++ [NL] ++ codes "C" ++ [NL] ++ codes "B" ++ [NL]);
   (codes "y", codes "A" ++ [NL] ++ codes "C" ++ [NL])].
Proof.
  split.
  - destruct final_newline; by vm_compute.
  - by vm_compute.
Qed.

(** ** C2: what the composer produces for a target *)

(** C2: for every bucket map and every target of the registry, the output
    record holds for that target the text [t ++ "\n"], where the shared
    bucket's lines followed by the target's own lines (none when it has no
    bucket), joined by single newlines, are [t ++ w] with [w] made of
    whitespace only and [t] not ending in whitespace. *)
Theorem C2_composed_output (b : gmap str (list str)) (al : list (str * path))
    (T : str) :
  T ∈ al.*1 →
  ∃ t w,
    dict_get T (build_outputs b al) = Some (t ++ [NL]) ∧
    join [NL] (default [] (b !! ALL) ++ default [] (b !! T)) = t ++ w ∧
    Forall (λ c, isspace c = true) w ∧
    ends_in_space t = false ∧
    t = rstrip (join [NL] (default [] (b !! ALL) ++ default [] (b !! T))).
Proof.
  intros HT. rewrite build_outputs_lookup, decide_True by done. unfold composed.
  destruct (rstrip_spec (join [NL] (default [] (b !! ALL) ++ default [] (b !! T))))
    as (w & Hw & Hall & Hend).
  eexists _, w. by repeat split.
Qed.

Lemma C2_composed_output_witness :
  ∃ t w,
    dict_get (codes "x")
      (build_outputs example1_buckets [(codes "x", codes "x.md")]) = Some (t ++ [NL]) ∧
    join [NL] (default [] (example1_buckets !! ALL)
               ++ default [] (example1_buckets !! codes "x")) = t ++ w ∧
    Forall (λ c, isspace c = true) w ∧
    ends_in_space t = false ∧
    t = rstrip (join [NL] (default [] (example1_buckets !! ALL)
                           ++ default [] (example1_buckets !! codes "x"))).
Proof.
  apply (C2_composed_output example1_buckets [(codes "x", codes "x.md")] (codes "x")).
  apply list_elem_of_here.
Defined.

(** ** C3: the malformed directive *)

(** C3: the parser raises exactly when some line is an open directive
    whose identifier list is empty after splitting and trimming; the error
    is the one for the first such line and carries that line's text; the
    lines after it play no part; and [main] then exits with that message
    without any event: nothing is written or printed, whatever the world
    and whatever the file would do after these lines. When no line is
    malformed the parser returns a bucket map. *)
Theorem C3_malformed_directive (fh : list str) (base : path)
    (al : list (str * path)) (dry_run : bool) (w : world)
    (failure : option exn) :
  ((∃ e, parse_base_file fh = Raise e) ↔
   Exists (λ raw, malformed (line_of raw) = true) fh) ∧
  match first_malformed fh with
  | Some line =>
      parse_base_file fh = Raise (ValueError (no_editors_msg line)) ∧
      main w base (Present (Lines fh failure)) al dry_run =
        ([], SystemExit (no_editors_msg line))
  | None => ∃ b, parse_base_file fh = Ok b
  end.
Proof.
  unfold main, parse_base_path, parse_base_file.
  pose proof (parse_loop_first_malformed fh init) as H.
  pose proof (first_malformed_None fh) as HN.
  destruct (first_malformed fh) as [line|] eqn:HS.
  - rewrite H. simpl. split; [|done]. split; [|by eexists].
    intros _. apply Exists_exists.
    destruct (proj1 (first_malformed_Some fh line) HS)
      as (pre & raw & post & -> & _ & Hm & _).
    exists raw. split; [|done]. apply elem_of_app. right. apply list_elem_of_here.
  - destruct H as [st' ->]. simpl. split; [|by eexists]. split; [by intros [? ?]|].
    intros Hex. exfalso. apply Exists_exists in Hex as (raw & Hin & Hm).
    assert (Forall (λ r, malformed (line_of r) = false) fh) as Hall by by apply HN.
    rewrite Forall_forall in Hall. specialize (Hall raw Hin). congruence.
Qed.

(** Example 3 of the specification: a line reading [::only   ,  ,]. *)
Example example3 :
  parse_base_file [codes "A"; codes "::only   ,  ,"; codes "B"] =
  Raise (ValueError (no_editors_msg (codes "::only   ,  ,"))) ∧
  main (λ _ _, None) (codes "agentic_rules.md")
       (Present (Lines [codes "A"; codes "::only   ,  ,"; codes "B"] None))
       [(codes "x", codes "x.md")] false =
  ([], SystemExit (codes "No editors specified in directive at line: ::only   ,  ,")).
Proof. split; by vm_compute. Qed.

(** ** C4: documents without directives *)

(** A document without directives yields the shared bucket alone, holding
    every line. *)
Lemma parse_no_directives (fh : list str) :
  Forall (λ raw, is_content (line_of raw) = true) fh →
  parse_base_file fh = Ok {[ALL := line_of <$> fh]}.
Proof.
  intros Hfh. unfold parse_base_file.
  destruct (parse_loop_content fh init Hfh) as (b' & -> & Hb').
  { simpl. rewrite dom_singleton_L. done. }
  simpl. f_equal. apply map_eq. intros k. rewrite Hb'. simpl.
  destruct (decide (k = ALL)) as [->|Hne].
  - rewrite decide_True by set_solver. by rewrite !lookup_singleton_eq.
  - rewrite decide_False by set_solver. by rewrite !lookup_singleton_ne.
Qed.

(** C4, as stated, fails in two ways. A document without directives whose
    last line ends in a blank loses that blank: the lines joined by
    newlines plus one newline are not what is composed. And a target that
    is named like the shared identifier gets every line twice. *)
Lemma C4_counterexample :
  (Forall (λ raw, is_content (line_of raw) = true) [codes "A "] ∧
   ∃ b, parse_base_file [codes "A "] = Ok b ∧
        dict_get (codes "x") (build_outputs b [(codes "x", codes "x.md")])
        ≠ Some (join [NL] (line_of <$> [codes "A "]) ++ [NL])) ∧
  (Forall (λ raw, is_content (line_of raw) = true) [codes "A"] ∧
   ∃ b, parse_base_file [codes "A"] = Ok b ∧
        dict_get ALL (build_outputs b [(ALL, codes "all.md")])
        ≠ Some (join [NL] (line_of <$> [codes "A"]) ++ [NL])).
Proof.
  split; (split; [repeat constructor|]).
  - exists {[ALL := [codes "A "]]}. split; [by vm_compute|]. vm_compute. discriminate.
  - exists {[ALL := [codes "A"]]}. split; [by vm_compute|]. vm_compute. discriminate.
Qed.

(** C4, amended: for every document without directive lines and every
    target of the registry other than the shared identifier [__ALL__], the
    bucket map is the shared bucket holding every line, and the target's
    output is the lines joined by single newlines, stripped of trailing
    whitespace, plus one newline; it is the joined lines plus one newline
    when the joined text does not end in whitespace. The same holds for
    any bucket map whose shared bucket is the document and in which the
    target's own bucket is empty or absent. *)
Theorem C4_no_directives (fh : list str) (al : list (str * path)) (T : str) :
  Forall (λ raw, is_content (line_of raw) = true) fh →
  T ∈ al.*1 → T ≠ ALL →
  parse_base_file fh = Ok {[ALL := line_of <$> fh]} ∧
  dict_get T (build_outputs {[ALL := line_of <$> fh]} al) =
    Some (rstrip (join [NL] (line_of <$> fh)) ++ [NL]) ∧
  (ends_in_space (join [NL] (line_of <$> fh)) = false →
   dict_get T (build_outputs {[ALL := line_of <$> fh]} al) =
     Some (join [NL] (line_of <$> fh) ++ [NL])) ∧
  (∀ b : gmap str (list str),
     b !! ALL = Some (line_of <$> fh) → default [] (b !! T) = [] →
     dict_get T (build_outputs b al) =
       Some (rstrip (join [NL] (line_of <$> fh)) ++ [NL])).
Proof.
  intros Hfh HT Hne.
  assert (∀ b : gmap str (list str),
     b !! ALL = Some (line_of <$> fh) → default [] (b !! T) = [] →
     dict_get T (build_outputs b al) =
       Some (rstrip (join [NL] (line_of <$> fh)) ++ [NL])) as Hb.
  { intros b HA Hown. rewrite build_outputs_lookup, decide_True by done.
    unfold composed. rewrite HA, Hown. simpl. by rewrite app_nil_r. }
  assert (dict_get T (build_outputs {[ALL := line_of <$> fh]} al) =
    Some (rstrip (join [NL] (line_of <$> fh)) ++ [NL])) as Hout.
  { apply Hb; [by rewrite lookup_singleton_eq|].
    by rewrite lookup_singleton_ne. }
  split; [by apply parse_no_directives|]. split; [done|]. split; [|done].
  intros Hend. by rewrite Hout, rstrip_id.
Qed.

Lemma C4_no_directives_witness :
  parse_base_file [codes "A"; codes "B"] = Ok {[ALL := line_of <$> [codes "A"; codes "B"]]} ∧
  dict_get (codes "x")
    (build_outputs {[ALL := line_of <$> [codes "A"; codes "B"]]}
       [(codes "x", codes "x.md")]) =
    Some (codes "A" ++ [NL] ++ codes "B" ++ [NL]).
Proof.
  destruct (C4_no_directives [codes "A"; codes "B"] [(codes "x", codes "x.md")]
              (codes "x")) as (Hp & _ & Hout & _).
  - repeat constructor.
  - apply list_elem_of_here.
  - by vm_compute.
  - split; [exact Hp|]. apply Hout. reflexivity.
Defined.

(** ** C7: targets no open directive mentions *)

(** C7, as stated, fails for a target named like the shared identifier:
    no open directive mentions it, and its output is the shared lines
    twice, not the composition of the shared bucket alone. *)
Lemma C7_counterexample :
  (ALL ∉ mentioned [codes "A"]) ∧
  ∃ b, parse_base_file [codes "A"] = Ok b ∧
       dict_get ALL (build_outputs b [(ALL, codes "all.md")])
       ≠ Some (rstrip (join [NL] (default [] (b !! ALL))) ++ [NL]).
Proof.
  split.
  - rewrite elem_of_mentioned. intros (raw & ->%list_elem_of_singleton & Ho & _).
    by vm_compute in Ho.
  - exists {[ALL := [codes "A"]]}. split; [by vm_compute|]. vm_compute. discriminate.
Qed.

(** C7, amended: for every document that parses and every target of the
    registry, other than the shared identifier [__ALL__], that no open
    directive mentions, the target has no bucket and its output is the
    composition of the shared bucket alone, hence the same text for all
    such targets; the composer returns an entry for it, it does not
    raise. *)
Theorem C7_unmentioned_target (fh : list str) (b : gmap str (list str))
    (al : list (str * path)) (T : str) :
  parse_base_file fh = Ok b →
  T ∈ al.*1 → T ∉ mentioned fh → T ≠ ALL →
  b !! T = None ∧
  dict_get T (build_outputs b al) =
    Some (rstrip (join [NL] (default [] (b !! ALL))) ++ [NL]) ∧
  (∀ T', T' ∈ al.*1 → T' ∉ mentioned fh → T' ≠ ALL →
         dict_get T' (build_outputs b al) = dict_get T (build_outputs b al)).
Proof.
  unfold parse_base_file. intros Hp HT Hm Hne.
  destruct (parse_loop init fh) as [st|e] eqn:Hl; simpl in Hp; [|done].
  injection Hp as <-.
  destruct (parse_loop_dom fh init st Hl scoped_init) as [Hdom _].
  assert (∀ T', T' ∉ mentioned fh → T' ≠ ALL → buckets st !! T' = None) as Hnone.
  { intros T' Hm' Hne'. apply not_elem_of_dom. rewrite Hdom. simpl.
    rewrite dom_singleton_L. set_solver. }
  assert (∀ T', T' ∈ al.*1 → T' ∉ mentioned fh → T' ≠ ALL →
     dict_get T' (build_outputs (buckets st) al) =
     Some (rstrip (join [NL] (default [] (buckets st !! ALL))) ++ [NL])) as Hout.
  { intros T' HT' Hm' Hne'. rewrite build_outputs_lookup, decide_True by done.
    unfold composed. rewrite (Hnone T' Hm' Hne'). simpl. by rewrite app_nil_r. }
  split; [by apply Hnone|]. split; [by apply Hout|].
  intros T' HT' Hm' Hne'. by rewrite !Hout.
Qed.

Lemma C7_unmentioned_target_witness :
  dict_get (codes "y")
    (build_outputs example1_buckets [(codes "x", codes "x.md"); (codes "y", codes "y.md")]) =
  Some (rstrip (join [NL] (default [] (example1_buckets !! ALL))) ++ [NL]).
Proof.
  refine (proj1 (proj2 (C7_unmentioned_target (example1 true) example1_buckets
            [(codes "x", codes "x.md"); (codes "y", codes "y.md")] (codes "y")
            _ _ _ _))).
  - by vm_compute.
  - apply list_elem_of_further, list_elem_of_here.
  - by vm_compute.
  - by vm_compute.
Defined.

(** ** C6: the close directive *)

Lemma dropwhile_app_keep (f : N → bool) (a b : str) :
  (∀ c, c ∈ b → f c = false) → ∃ a', dropwhile f (a ++ b) = a' ++ b.
Proof.
  intros Hb. induction a as [|c a [a' IH]]; simpl.
  - exists []. destruct b as [|c b]; simpl; [done|].
    by rewrite Hb by apply list_elem_of_here.
  - destruct (f c); [by exists a'|by exists (c :: a)].
Qed.

(** Removing the line end keeps a prefix that has no newline in it. *)
Lemma line_of_prefix (p tail : str) :
  NL ∉ p → ∃ t, line_of (p ++ tail) = p ++ t.
Proof.
  intros Hp. unfold line_of, rstrip_chars. rewrite rev_app_distr.
  destruct (dropwhile_app_keep (λ c, bool_decide (c ∈ [NL])) (rev tail) (rev p))
    as [a' ->].
  - intros c Hc. apply bool_decide_eq_false.
    intros ->%list_elem_of_singleton. apply Hp.
    apply list_elem_of_In, in_rev. by apply list_elem_of_In.
  - exists (rev a'). by rewrite rev_app_distr, rev_involutive.
Qed.

Lemma is_close_prefix (tail : str) : is_close (line_of (codes "::end" ++ tail)) = true.
Proof.
  destruct (line_of_prefix (codes "::end") tail) as [t ->].
  - rewrite codes_end. unfold NL. set_solver.
  - apply startswith_app.
Qed.

(** C6: a raw line that begins with [::end], whatever follows, makes the
    shared identifier the only active one and leaves the buckets alone,
    exactly as the bare [::end] does; in a state where the shared
    identifier is already the only active one, the state is unchanged. *)
Theorem C6_close_resets (b : gmap str (list str)) (cur : gset str) (tail : str) :
  step (State b cur) (codes "::end" ++ tail) = Ok (State b {[ALL]}) ∧
  step (State b cur) (codes "::end" ++ tail) = step (State b cur) (codes "::end") ∧
  step (State b {[ALL]}) (codes "::end" ++ tail) = Ok (State b {[ALL]}).
Proof.
  assert (∀ cur' t, step (State b cur') (codes "::end" ++ t) = Ok (State b {[ALL]}))
    as Hstep.
  { intros cur' t. by rewrite (step_close _ _ (is_close_prefix t)). }
  split; [apply Hstep|]. split; [|apply Hstep].
  rewrite Hstep. pose proof (Hstep cur []) as Hbare.
  rewrite app_nil_r in Hbare. by rewrite Hbare.
Qed.

(** ** C5: an open directive replaces the scope *)

(** C5: when a prefix of the document ends with an open directive, a run of
    content lines, and a second open directive, the content lines that
    follow go, in order, to the end of the bucket of each identifier the
    second directive names, and the active set is that directive's set;
    every other bucket, among them the bucket of an identifier that only
    the first directive names, is left as it was. *)
Theorem C5_open_replaces (st0 st1 : state) (pre mid cs : list str) (open1 open2 : str) :
  is_open (line_of open1) = true →
  Forall (λ raw, is_content (line_of raw) = true) mid →
  is_open (line_of open2) = true →
  Forall (λ raw, is_content (line_of raw) = true) cs →
  parse_loop st0 (pre ++ [open1] ++ mid ++ [open2]) = Ok st1 →
  ∃ st2,
    parse_loop st0 (pre ++ [open1] ++ mid ++ [open2] ++ cs) = Ok st2 ∧
    current_editors st2 = editors_of (line_of open2) ∧
    (∀ k, k ∈ editors_of (line_of open2) →
          ∃ l, buckets st1 !! k = Some l ∧
               buckets st2 !! k = Some (l ++ (line_of <$> cs))) ∧
    (∀ k, k ∉ editors_of (line_of open2) → buckets st2 !! k = buckets st1 !! k) ∧
    (∀ k, k ∈ editors_of (line_of open1) → k ∉ editors_of (line_of open2) →
          buckets st2 !! k = buckets st1 !! k).
Proof.
  intros Ho1 Hmid Ho2 Hcs Hp.
  replace (pre ++ [open1] ++ mid ++ [open2] ++ cs)
    with ((pre ++ [open1] ++ mid ++ [open2]) ++ cs)
    by (by rewrite <- !app_assoc).
  rewrite parse_loop_app, Hp. simpl.
  replace (pre ++ [open1] ++ mid ++ [open2])
    with ((pre ++ [open1] ++ mid) ++ [open2]) in Hp
    by (by rewrite <- !app_assoc).
  rewrite parse_loop_snoc in Hp.
  destruct (parse_loop st0 (pre ++ [open1] ++ mid)) as [st|e]; simpl in Hp; [|done].
  destruct (step_viewP st open2) as [Hm|_ He|Hc|Hn]; simplify_eq;
    [|apply open_not_close in Ho2; congruence
     |apply content_not_open in Hn; congruence].
  destruct (parse_loop_content cs
    (State (set_fold setdefault (buckets st) (editors_of (line_of open2)))
           (editors_of (line_of open2))) Hcs) as (b' & -> & Hb'); simpl in *.
  { rewrite dom_fold_setdefault. set_solver. }
  eexists. split; [done|]. simpl. split; [done|].
  assert (∀ k, k ∉ editors_of (line_of open2) →
    b' !! k = set_fold setdefault (buckets st) (editors_of (line_of open2)) !! k)
    as Hother.
  { intros k Hk. by rewrite Hb', decide_False. }
  split; [|split; [done|auto]].
  intros k Hk. rewrite Hb', decide_True by done.
  rewrite fold_setdefault_lookup, decide_True by done. simpl. by eexists.
Qed.

Lemma C5_open_replaces_witness :
  ∃ st2,
    parse_loop init ([] ++ [codes "::only x"] ++ [codes "B"] ++ [codes "::only y"]
                     ++ [codes "C"]) = Ok st2 ∧
    current_editors st2 = editors_of (line_of (codes "::only y")) ∧
    (∀ k, k ∈ editors_of (line_of (codes "::only y")) →
          ∃ l, buckets after_two_opens !! k = Some l ∧
               buckets st2 !! k = Some (l ++ (line_of <$> [codes "C"]))) ∧
    (∀ k, k ∉ editors_of (line_of (codes "::only y")) →
          buckets st2 !! k = buckets after_two_opens !! k) ∧
    (∀ k, k ∈ editors_of (line_of (codes "::only x")) →
          k ∉ editors_of (line_of (codes "::only y")) →
          buckets st2 !! k = buckets after_two_opens !! k).
Proof.
  apply (C5_open_replaces init after_two_opens [] [codes "B"] [codes "C"]
           (codes "::only x") (codes "::only y")).
  - by vm_compute.
  - repeat constructor.
  - by vm_compute.
  - repeat constructor.
  - by vm_compute.
Defined.

(** ** C8: buckets exist once named *)

(** C8: after the parser has processed any sequence of raw lines from its
    initial state, in particular any prefix of a document, the bucket map
    has an entry for the shared identifier and for every identifier named
    by an open directive processed so far, and for nothing else; so has
    the bucket map returned for a document that parses. *)
Theorem C8_buckets_exist (fh : list str) :
  (∀ pre post st, fh = pre ++ post → parse_loop init pre = Ok st →
     is_Some (buckets st !! ALL) ∧
     (∀ e, e ∈ mentioned pre → is_Some (buckets st !! e)) ∧
     dom (buckets st) = {[ALL]} ∪ mentioned pre) ∧
  (∀ b, parse_base_file fh = Ok b →
     is_Some (b !! ALL) ∧
     (∀ e, e ∈ mentioned fh → is_Some (b !! e)) ∧
     dom b = {[ALL]} ∪ mentioned fh).
Proof.
  assert (∀ pre st, parse_loop init pre = Ok st →
     is_Some (buckets st !! ALL) ∧
     (∀ e, e ∈ mentioned pre → is_Some (buckets st !! e)) ∧
     dom (buckets st) = {[ALL]} ∪ mentioned pre) as Hinv.
  { intros pre st Hp.
    destruct (parse_loop_dom pre init st Hp scoped_init) as [Hdom _].
    simpl in Hdom. rewrite dom_singleton_L in Hdom.
    split; [|split; [|done]].
    - apply elem_of_dom. rewrite Hdom. set_solver.
    - intros e He. apply elem_of_dom. rewrite Hdom. set_solver. }
  split.
  - intros pre post st _ Hp. by apply Hinv.
  - unfold parse_base_file. intros b Hp.
    destruct (parse_loop init fh) as [st|e] eqn:Hl; simpl in Hp; [|done].
    injection Hp as <-. by apply Hinv.
Qed.

Lemma C8_buckets_exist_witness :
  is_Some (example1_buckets !! ALL) ∧
  (∀ e, e ∈ mentioned (example1 true) → is_Some (example1_buckets !! e)) ∧
  dom example1_buckets = {[ALL]} ∪ mentioned (example1 true).
Proof.
  apply (proj2 (C8_buckets_exist (example1 true)) example1_buckets).
  by vm_compute.
Defined.

(** ** C9: targets are composed independently *)

(** C9: the output composed for a target depends on the shared bucket and
    on the target's own bucket only: two bucket maps that agree on these
    two entries, composed for two registries that both hold the target
    (in any order, with any other targets and any destinations), give the
    target the same text. *)
Theorem C9_noninterference (b1 b2 : gmap str (list str))
    (al1 al2 : list (str * path)) (T : str) :
  b1 !! ALL = b2 !! ALL → b1 !! T = b2 !! T →
  T ∈ al1.*1 → T ∈ al2.*1 →
  dict_get T (build_outputs b1 al1) = dict_get T (build_outputs b2 al2) ∧
  dict_get T (build_outputs b1 al1) = Some (composed b1 T).
Proof.
  intros HA HT H1 H2. rewrite !build_outputs_lookup, !decide_True by done.
  split; [|done]. unfold composed. by rewrite HA, HT.
Qed.

Lemma C9_noninterference_witness :
  dict_get (codes "x")
    (build_outputs example1_buckets [(codes "x", codes "x.md"); (codes "y", codes "y.md")]) =
  dict_get (codes "x")
    (build_outputs (<[codes "y" := [codes "D"]]> example1_buckets)
       [(codes "y", codes "y.md"); (codes "x", codes "other.md")]) ∧
  dict_get (codes "x")
    (build_outputs example1_buckets [(codes "x", codes "x.md"); (codes "y", codes "y.md")]) =
  Some (composed example1_buckets (codes "x")).
Proof.
  apply (C9_noninterference example1_buckets
           (<[codes "y" := [codes "D"]]> example1_buckets)
           [(codes "x", codes "x.md"); (codes "y", codes "y.md")]
           [(codes "y", codes "y.md"); (codes "x", codes "other.md")] (codes "x")).
  - by vm_compute.
  - by vm_compute.
  - apply list_elem_of_here.
  - apply list_elem_of_further, list_elem_of_here.
Defined.

(** ** C10: the shared identifier is an ordinary identifier *)

Lemma only_ALL_open : is_open (codes "::only __ALL__") = true.
Proof. by vm_compute. Qed.

Lemma only_ALL_editors : editors_of (codes "::only __ALL__") = {[ALL]}.
Proof. by vm_compute. Qed.

Lemma dropwhile_app (f : N → bool) (x y : str) :
  dropwhile f (x ++ y) =
  match dropwhile f x with
  | [] => dropwhile f y
  | d => d ++ y
  end.
Proof.
  induction x as [|c x IH]; simpl; [by destruct (dropwhile f y)|].
  by destruct (f c).
Qed.

(** Stripping a text made of two parts: the second part goes when it is
    blank, and protects the first when it is not. *)
Lemma rstrip_app_blank (a b : str) : rstrip b = [] → rstrip (a ++ b) = rstrip a.
Proof.
  unfold rstrip. rewrite rev_app_distr, dropwhile_app. intros Hb.
  destruct (dropwhile isspace (rev b)) as [|c d]; [done|].
  simpl in Hb. by destruct (rev d).
Qed.

Lemma rstrip_app_keep (a b : str) : rstrip b ≠ [] → rstrip (a ++ b) = a ++ rstrip b.
Proof.
  unfold rstrip. rewrite rev_app_distr, dropwhile_app. intros Hb.
  destruct (dropwhile isspace (rev b)) as [|c d]; [done|].
  by rewrite rev_app_distr, rev_involutive.
Qed.

Lemma occurs_in_nil (t : str) : occurs_in [] t.
Proof. by exists [], t. Qed.

(** A line occurs, up to its trailing whitespace, in what is left of any
    text around it once the text is stripped. *)
Lemma rstrip_occurs (p l s : str) : occurs_in (rstrip l) (rstrip (p ++ l ++ s)).
Proof.
  destruct (rstrip_spec l) as (wl & Hwl & _ & _).
  destruct (decide (rstrip s = [])) as [Hs|Hs].
  - destruct (decide (rstrip l = [])) as [Hl|Hl].
    + rewrite Hl. apply occurs_in_nil.
    + rewrite rstrip_app_keep by (by rewrite rstrip_app_blank).
      rewrite rstrip_app_blank by done.
      exists p, []. by rewrite app_nil_r.
  - assert (rstrip (l ++ s) = l ++ rstrip s) as Hls by by apply rstrip_app_keep.
    rewrite rstrip_app_keep by (rewrite Hls; by destruct l, (rstrip s)).
    rewrite Hls. exists p, (wl ++ rstrip s).
    rewrite Hwl at 1. by rewrite <- !app_assoc.
Qed.

Lemma join_occurs (sep l : str) (lines : list str) :
  l ∈ lines → occurs_in l (join sep lines).
Proof.
  induction lines as [|l0 lines IH]; [by intros ?%elem_of_nil|].
  intros [->|Hin]%elem_of_cons.
  - destruct lines as [|l1 lines]; simpl.
    + exists [], []. by rewrite app_nil_r.
    + by exists [], (sep ++ join sep (l1 :: lines)).
  - destruct (IH Hin) as (p & s & Hj).
    destruct lines as [|l1 lines]; [by apply elem_of_nil in Hin|].
    change (join sep (l0 :: l1 :: lines))
      with (l0 ++ sep ++ join sep (l1 :: lines)).
    rewrite Hj. exists (l0 ++ sep ++ p), s. by rewrite <- !app_assoc.
Qed.

(** Every line composed for a target occurs in the target's text, up to
    the line's own trailing whitespace. *)
Lemma composed_occurs (b : gmap str (list str)) (T l : str) :
  l ∈ default [] (b !! ALL) ++ default [] (b !! T) →
  occurs_in (rstrip l) (composed b T).
Proof.
  intros (p & s & Hj)%(join_occurs [NL]). unfold composed. rewrite Hj.
  destruct (rstrip_occurs p l s) as (p' & s' & ->).
  exists p', (s' ++ [NL]). by rewrite <- !app_assoc.
Qed.

(** C10, as stated, fails: after [::only __ALL__] the line made of one
    blank goes to the shared bucket, yet it does not appear in the output
    composed for a target, which is a single newline. *)
Lemma C10_counterexample :
  parse_base_file [codes "::only __ALL__"; codes " "] = Ok {[ALL := [codes " "]]} ∧
  dict_get (codes "x")
    (build_outputs {[ALL := [codes " "]]} [(codes "x", codes "x.md")]) = Some [NL] ∧
  ¬ occurs_in (codes " ") [NL].
Proof.
  split; [by vm_compute|]. split; [by vm_compute|].
  intros (p & s & H). destruct p as [|c [|c' p]]; simpl in H; simplify_eq.
Qed.

(** C10, amended: in a document that parses, the content lines that follow
    a line [::only __ALL__], up to the next directive, are appended to the
    shared bucket and to no other bucket, with the shared identifier as
    the only active one, rather than to a bucket of a target named
    [__ALL__] only; they stay in the shared bucket to the end of the
    parse, so the lines composed for every target of every registry
    contain them, and each of them appears in every target's composed
    output up to trailing whitespace: the line without its trailing
    whitespace occurs in the output. *)
Theorem C10_shared_namespace (pre cs post : list str) (raw : str)
    (b : gmap str (list str)) :
  line_of raw = codes "::only __ALL__" →
  Forall (λ r, is_content (line_of r) = true) cs →
  parse_base_file (pre ++ [raw] ++ cs ++ post) = Ok b →
  ∃ st1 st2 l1 l2,
    parse_loop init (pre ++ [raw]) = Ok st1 ∧
    parse_loop st1 cs = Ok st2 ∧
    current_editors st1 = {[ALL]} ∧ current_editors st2 = {[ALL]} ∧
    buckets st1 !! ALL = Some l1 ∧
    buckets st2 !! ALL = Some (l1 ++ (line_of <$> cs)) ∧
    (∀ k, k ≠ ALL → buckets st2 !! k = buckets st1 !! k) ∧
    b !! ALL = Some (l1 ++ (line_of <$> cs) ++ l2) ∧
    (∀ (al : list (str * path)) T, T ∈ al.*1 →
       dict_get T (build_outputs b al) =
       Some (rstrip (join [NL] ((l1 ++ (line_of <$> cs) ++ l2)
                                ++ default [] (b !! T))) ++ [NL])) ∧
    (∀ (al : list (str * path)) T l, T ∈ al.*1 → l ∈ line_of <$> cs →
       ∃ out, dict_get T (build_outputs b al) = Some out ∧
              occurs_in (rstrip l) out).
Proof.
  intros Hraw Hcs. unfold parse_base_file.
  replace (pre ++ [raw] ++ cs ++ post) with (((pre ++ [raw]) ++ cs) ++ post)
    by (by rewrite <- !app_assoc).
  rewrite 2!parse_loop_app, parse_loop_snoc.
  destruct (parse_loop init pre) as [st0|e] eqn:Hpre; simpl; [|done].
  assert (is_open (line_of raw) = true) as Ho by (rewrite Hraw; apply only_ALL_open).
  assert (editors_of (line_of raw) = {[ALL]}) as He
    by (rewrite Hraw; apply only_ALL_editors).
  rewrite (step_open st0 raw Ho) by (rewrite He; set_solver).
  rewrite He. simpl.
  set (st1 := State (set_fold setdefault (buckets st0) {[ALL]}) {[ALL]}).
  destruct (parse_loop_content cs st1 Hcs) as (b2 & Hp2 & Hb2).
  { simpl. rewrite dom_fold_setdefault. set_solver. }
  rewrite Hp2. simpl.
  destruct (parse_loop_dom pre init st0 Hpre scoped_init) as [_ [HA0 _]].
  apply elem_of_dom in HA0 as [l1 Hl1].
  assert (buckets st1 !! ALL = Some l1) as Hl1'.
  { simpl. rewrite fold_setdefault_lookup, decide_True by set_solver.
    by rewrite Hl1. }
  assert (b2 !! ALL = Some (l1 ++ (line_of <$> cs))) as Hl2.
  { rewrite Hb2, decide_True by set_solver. by rewrite Hl1'. }
  destruct (parse_loop (State b2 {[ALL]}) post) as [st3|e] eqn:Hpost; simpl; [|done].
  intros [= <-].
  destruct (parse_loop_grows post _ st3 ALL _ Hpost Hl2) as [l2 Hl3].
  exists st1, (State b2 {[ALL]}), l1, l2. simpl.
  split; [reflexivity|]. split; [exact Hp2|]. split; [reflexivity|].
  split; [reflexivity|]. split; [exact Hl1'|]. split; [exact Hl2|].
  split; [|split; [|split]].
  - intros k Hk. rewrite Hb2. rewrite decide_False; [reflexivity|].
    unfold st1. cbn [current_editors]. rewrite elem_of_singleton. exact Hk.
  - rewrite Hl3, <- app_assoc. reflexivity.
  - intros al T HT. rewrite build_outputs_lookup, decide_True by exact HT.
    unfold composed. rewrite Hl3, <- app_assoc. reflexivity.
  - intros al T l HT Hl. exists (composed (buckets st3) T).
    split; [by rewrite build_outputs_lookup, decide_True by exact HT|].
    apply composed_occurs. rewrite Hl3. apply elem_of_app. left.
    change (l ∈ (l1 ++ (line_of <$> cs)) ++ l2). rewrite !elem_of_app. tauto.
Qed.

Lemma C10_shared_namespace_witness :
  ∃ st1 st2 l1 l2,
    parse_loop init ([codes "A"] ++ [codes "::only __ALL__"]) = Ok st1 ∧
    parse_loop st1 [codes "B"] = Ok st2 ∧
    current_editors st1 = {[ALL]} ∧ current_editors st2 = {[ALL]} ∧
    buckets st1 !! ALL = Some l1 ∧
    buckets st2 !! ALL = Some (l1 ++ (line_of <$> [codes "B"])) ∧
    (∀ k, k ≠ ALL → buckets st2 !! k = buckets st1 !! k) ∧
    ({[ALL := [codes "A"; codes "B"; codes "C"]]} : gmap str (list str)) !! ALL =
      Some (l1 ++ (line_of <$> [codes "B"]) ++ l2) ∧
    (∀ (al : list (str * path)) T, T ∈ al.*1 →
       dict_get T (build_outputs {[ALL := [codes "A"; codes "B"; codes "C"]]} al) =
       Some (rstrip (join [NL] ((l1 ++ (line_of <$> [codes "B"]) ++ l2)
               ++ default [] (({[ALL := [codes "A"; codes "B"; codes "C"]]}
                                 : gmap str (list str)) !! T))) ++ [NL])) ∧
    (∀ (al : list (str * path)) T l, T ∈ al.*1 → l ∈ line_of <$> [codes "B"] →
       ∃ out, dict_get T (build_outputs {[ALL := [codes "A"; codes "B"; codes "C"]]} al)
              = Some out ∧
              occurs_in (rstrip l) out).
Proof.
  apply (C10_shared_namespace [codes "A"] [codes "B"] [codes "::end"; codes "C"]
           (codes "::only __ALL__") {[ALL := [codes "A"; codes "B"; codes "C"]]}).
  - by vm_compute.
  - repeat constructor.
  - by vm_compute.
Defined.

(** * Further properties of the code *)

(** ** The parser, line by line *)

Lemma lines_for_cons_in (k : str) (cur : gset str) (line : str) rest :
  k ∈ cur → lines_for k ((cur, line) :: rest) = line :: lines_for k rest.
Proof. intros Hk. unfold lines_for. by rewrite filter_cons_True. Qed.

Lemma lines_for_cons_out (k : str) (cur : gset str) (line : str) rest :
  k ∉ cur → lines_for k ((cur, line) :: rest) = lines_for k rest.
Proof. intros Hk. unfold lines_for. by rewrite filter_cons_False. Qed.

(** The bucket map after a run of the loop, from any state in which the
    active editors have buckets. *)
Lemma parse_loop_scopes fh : ∀ st st' k,
  parse_loop st fh = Ok st' → scoped st →
  buckets st' !! k =
  if decide (k ∈ dom (buckets st) ∪ mentioned fh)
  then Some (default [] (buckets st !! k)
             ++ lines_for k (scopes (current_editors st) fh))
  else None.
Proof.
  induction fh as [|raw fh IH]; intros st st' k Hp Hsc; simpl in Hp.
  - injection Hp as <-. simpl. unfold lines_for, mentioned. simpl.
    rewrite (right_id_L ∅ (∪)), app_nil_r.
    case_decide as Hk.
    + apply elem_of_dom in Hk as [l ->]. done.
    + by apply not_elem_of_dom.
  - destruct (step st raw) as [st1|e] eqn:Hs; simpl in Hp; [|done].
    destruct (step_dom _ _ _ Hs Hsc) as [Hd1 Hsc1].
    rewrite (IH _ _ k Hp Hsc1), Hd1.
    change (raw :: fh) with ([raw] ++ fh). rewrite mentioned_app.
    rewrite <- (assoc_L (∪)).
    destruct (decide (k ∈ dom (buckets st) ∪ (mentioned [raw] ∪ mentioned fh)))
      as [Hk|Hk]; [|done].
    f_equal. simpl.
    destruct Hsc as [_ Hcur].
    destruct (step_viewP st raw) as [Hm|Ho He|Hc|Hn]; simplify_eq; simpl.
    + rewrite Ho. rewrite fold_setdefault_lookup. by case_decide.
    + rewrite Hc. destruct (is_open (line_of raw)) eqn:Ho; [|done].
      apply open_not_close in Ho. congruence.
    + rewrite (content_not_open _ Hn), (content_not_close _ Hn).
      rewrite fold_append_lookup. case_decide as Hin; simpl.
      * rewrite lines_for_cons_in by done. by rewrite <- app_assoc.
      * by rewrite lines_for_cons_out.
Qed.

Lemma parse_scopes_lookup (fh : list str) (b : gmap str (list str)) (k : str) :
  parse_base_file fh = Ok b →
  b !! k =
  if decide (k = ALL ∨ k ∈ mentioned fh)
  then Some (lines_for k (scopes {[ALL]} fh))
  else None.
Proof.
  unfold parse_base_file. intros Hp.
  destruct (parse_loop init fh) as [st|e] eqn:Hl; simpl in Hp; [|done].
  injection Hp as <-.
  rewrite (parse_loop_scopes fh init st k Hl scoped_init). simpl.
  rewrite dom_singleton_L.
  destruct (decide (k = ALL)) as [->|Hne].
  - rewrite !decide_True; [|by left|set_solver].
    by rewrite lookup_singleton_eq.
  - rewrite lookup_singleton_ne by done. simpl.
    destruct (decide (k ∈ mentioned fh)) as [Hm|Hm].
    + rewrite !decide_True; [done|by right|set_solver].
    + rewrite !decide_False; [done|tauto|set_solver].
Qed.

(** X1: in the bucket map returned for a document, the keys are the shared
    identifier and the identifiers the open directives name, and each
    bucket holds exactly the content lines that lie in the scope of its
    identifier, unchanged and in document order. *)
Theorem parse_base_file_scopes (fh : list str) (b : gmap str (list str)) (k : str) :
  parse_base_file fh = Ok b →
  b !! k =
  if decide (k = ALL ∨ k ∈ mentioned fh)
  then Some (lines_for k (scopes {[ALL]} fh))
  else None.
Proof. apply parse_scopes_lookup. Qed.

Lemma parse_base_file_scopes_witness :
  example1_buckets !! codes "x" =
  if decide (codes "x" = ALL ∨ codes "x" ∈ mentioned (example1 true))
  then Some (lines_for (codes "x") (scopes {[ALL]} (example1 true)))
  else None.
Proof.
  apply (parse_base_file_scopes (example1 true) example1_buckets (codes "x")).
  by vm_compute.
Defined.

Lemma scopes_sublist fh : ∀ cur,
  (scopes cur fh).*2 `sublist_of` (line_of <$> fh) ∧
  Forall (λ line, is_content line = true) (scopes cur fh).*2.
Proof.
  induction fh as [|raw fh IH]; intros cur; simpl.
  - split; constructor.
  - destruct (is_open (line_of raw)) eqn:Ho.
    { destruct (IH (editors_of (line_of raw))). split; [by constructor|done]. }
    destruct (is_close (line_of raw)) eqn:Hc.
    { destruct (IH {[ALL]}). split; [by constructor|done]. }
    destruct (IH cur). simpl. split; [by constructor|].
    constructor; [|done]. unfold is_content. by rewrite Ho, Hc.
Qed.

Lemma sublist_fmap_snd {A B} (l1 l2 : list (A * B)) :
  l1 `sublist_of` l2 → l1.*2 `sublist_of` l2.*2.
Proof. induction 1; simpl; by constructor. Qed.

Lemma sublist_Forall {A} (P : A → Prop) (l1 l2 : list A) :
  l1 `sublist_of` l2 → Forall P l2 → Forall P l1.
Proof.
  induction 1 as [|x l1 l2 _ IH|x l1 l2 _ IH]; intros Hall; [done| |].
  - apply Forall_cons in Hall as [? ?]. constructor; auto.
  - apply Forall_cons in Hall as [_ ?]. auto.
Qed.

(** X2: every bucket of a parsed document is a subsequence of the
    document's lines, and all its lines are content lines: a directive
    line is never copied into a bucket, and no line is reordered or
    repeated within a bucket. *)
Theorem buckets_hold_content_lines (fh : list str) (b : gmap str (list str))
    (k : str) (l : list str) :
  parse_base_file fh = Ok b → b !! k = Some l →
  l `sublist_of` (line_of <$> fh) ∧
  Forall (λ line, is_open line = false ∧ is_close line = false) l.
Proof.
  intros Hp Hl. rewrite (parse_scopes_lookup fh b k Hp) in Hl.
  case_decide; [|done]. injection Hl as <-.
  destruct (scopes_sublist fh {[ALL]}) as [Hsub Hall].
  assert (lines_for k (scopes {[ALL]} fh) `sublist_of` (scopes {[ALL]} fh).*2) as Hf.
  { unfold lines_for. apply sublist_fmap_snd, sublist_filter. }
  split; [by etrans|].
  eapply Forall_impl; [exact (sublist_Forall _ _ _ Hf Hall)|].
  intros line Hc. split; [by apply content_not_open|by apply content_not_close].
Qed.

Lemma buckets_hold_content_lines_witness :
  [codes "B"] `sublist_of` (line_of <$> example1 true) ∧
  Forall (λ line, is_open line = false ∧ is_close line = false) [codes "B"].
Proof.
  apply (buckets_hold_content_lines (example1 true) example1_buckets (codes "x")).
  - by vm_compute.
  - by vm_compute.
Defined.

(** ** Line ends *)

Lemma line_of_snoc_NL (raw : str) : line_of (raw ++ [NL]) = line_of raw.
Proof.
  unfold line_of, rstrip_chars. rewrite rev_app_distr.
  change (rev [NL] ++ rev raw) with (NL :: rev raw). cbn [dropwhile].
  rewrite bool_decide_eq_true_2; [done|]. apply list_elem_of_here.
Qed.

Lemma step_line_of st raw1 raw2 :
  line_of raw1 = line_of raw2 → step st raw1 = step st raw2.
Proof. intros H. unfold step. fold (line_of raw1) (line_of raw2). by rewrite H. Qed.

Lemma parse_loop_line_of fh1 : ∀ fh2 st,
  line_of <$> fh1 = line_of <$> fh2 → parse_loop st fh1 = parse_loop st fh2.
Proof.
  induction fh1 as [|r1 fh1 IH]; intros [|r2 fh2] st Heq; simplify_eq/=; [done|].
  rewrite (step_line_of st r1 r2) by done.
  destruct (step st r2); simpl; [by apply IH|done].
Qed.

(** X3: the parser sees a raw line only through its text without trailing
    newlines: two files whose lines agree up to their line ends parse to
    the same result, and it makes no difference whether the last line of
    a file is ended by a newline. *)
Theorem parse_ignores_line_ends (fh fh' : list str) (raw : str) :
  (line_of <$> fh = line_of <$> fh' → parse_base_file fh = parse_base_file fh') ∧
  parse_base_file (fh ++ [raw ++ [NL]]) = parse_base_file (fh ++ [raw]).
Proof.
  unfold parse_base_file. split.
  - intros Heq. by rewrite (parse_loop_line_of fh fh').
  - rewrite (parse_loop_line_of (fh ++ [raw ++ [NL]]) (fh ++ [raw])); [done|].
    rewrite !fmap_app. simpl. by rewrite line_of_snoc_NL.
Qed.

Lemma parse_ignores_line_ends_witness :
  parse_base_file [codes "A" ++ [NL]; codes "::only x" ++ [NL; NL]] =
  parse_base_file [codes "A"; codes "::only x"].
Proof.
  apply (proj1 (parse_ignores_line_ends
                  [codes "A" ++ [NL]; codes "::only x" ++ [NL; NL]]
                  [codes "A"; codes "::only x"] [])).
  by vm_compute.
Defined.

(** ** Identifiers *)

Lemma elem_of_dropwhile (p : N → bool) (s : str) (c : N) :
  c ∈ dropwhile p s → c ∈ s.
Proof.
  induction s as [|c0 s IH]; simpl; [done|].
  destruct (p c0); [|done]. intros ?%IH. by apply list_elem_of_further.
Qed.

Lemma elem_of_strip (s : str) (c : N) : c ∈ strip s → c ∈ s.
Proof.
  unfold strip, rstrip, lstrip. intros Hc.
  apply list_elem_of_In, in_rev, list_elem_of_In, elem_of_dropwhile in Hc.
  apply list_elem_of_In, in_rev, list_elem_of_In in Hc.
  by apply elem_of_dropwhile in Hc.
Qed.

Lemma strip_idemp (s : str) : strip (strip s) = strip s.
Proof.
  unfold strip.
  destruct (dropwhile_split isspace s) as (w & _ & _ & Hhd).
  fold (lstrip s) in Hhd.
  destruct (rstrip_spec (lstrip s)) as (w' & Hw' & _ & _).
  destruct (rstrip (lstrip s)) as [|c u] eqn:Hr; [done|].
  assert (lstrip (c :: u) = c :: u) as ->.
  { rewrite Hw' in Hhd. cbn [app] in Hhd. unfold lstrip. cbn [dropwhile]. by rewrite Hhd. }
  rewrite <- Hr. apply rstrip_idemp.
Qed.

Lemma split_no_sep (sep : N) (s piece : str) :
  piece ∈ split sep s → sep ∉ piece.
Proof.
  revert piece. induction s as [|c s IH]; intros piece; simpl.
  - intros ->%list_elem_of_singleton. apply not_elem_of_nil.
  - destruct (decide (c = sep)) as [->|Hne].
    + intros [->|?]%elem_of_cons; [apply not_elem_of_nil|by apply IH].
    + destruct (split sep s) as [|p ps]; simpl.
      * intros ->%list_elem_of_singleton.
        by intros ->%list_elem_of_singleton.
      * intros [->|?]%elem_of_cons.
        -- intros [?|?]%elem_of_cons; [done|]. by apply (IH p); [left|].
        -- apply IH. by right.
Qed.

Lemma editors_of_trimmed (line e : str) :
  e ∈ editors_of line → e ≠ [] ∧ strip e = e ∧ 44 ∉ e.
Proof.
  unfold editors_of.
  intros (piece & -> & [Hne Hin]%list_elem_of_filter)%elem_of_list_to_set%list_elem_of_fmap.
  split; [done|]. split; [apply strip_idemp|].
  intros Hc%elem_of_strip. by apply (split_no_sep _ _ _ Hin).
Qed.

(** X4: an identifier that owns a bucket is the shared identifier or a
    name taken from an open directive, and such a name is never empty,
    has no whitespace at either end and contains no comma. *)
Theorem bucket_keys_trimmed (fh : list str) (b : gmap str (list str)) (k : str) :
  parse_base_file fh = Ok b → is_Some (b !! k) →
  k = ALL ∨ (k ≠ [] ∧ strip k = k ∧ 44 ∉ k).
Proof.
  intros Hp Hk. rewrite (parse_scopes_lookup fh b k Hp) in Hk.
  case_decide as Hd; [|by destruct Hk]. destruct Hd as [?|Hm]; [by left|]. right.
  apply elem_of_mentioned in Hm as (raw & _ & _ & He).
  by apply (editors_of_trimmed (line_of raw)).
Qed.

Lemma bucket_keys_trimmed_witness :
  codes "x" = ALL ∨ (codes "x" ≠ [] ∧ strip (codes "x") = codes "x" ∧ 44 ∉ codes "x").
Proof.
  apply (bucket_keys_trimmed (example1 true) example1_buckets (codes "x")).
  - by vm_compute.
  - exists [codes "B"]. by vm_compute.
Defined.

(** ** Documents put one after the other *)

Lemma scopes_app fh1 : ∀ fh2 st st1,
  parse_loop st fh1 = Ok st1 →
  scopes (current_editors st) (fh1 ++ fh2) =
  scopes (current_editors st) fh1 ++ scopes (current_editors st1) fh2.
Proof.
  induction fh1 as [|raw fh1 IH]; intros fh2 st st1 Hp; simpl in Hp.
  - by injection Hp as <-.
  - destruct (step st raw) as [st'|e] eqn:Hs; simpl in Hp; [|done].
    specialize (IH fh2 st' st1 Hp). simpl.
    destruct (step_viewP st raw) as [Hm|Ho He|Hc|Hn]; simplify_eq; simpl in *.
    + by rewrite Ho.
    + rewrite Hc. destruct (is_open (line_of raw)) eqn:Ho; [|done].
      apply open_not_close in Ho. congruence.
    + rewrite (content_not_open _ Hn), (content_not_close _ Hn). simpl.
      by rewrite IH.
Qed.

Lemma lines_for_out (k : str) fh : ∀ cur : gset str,
  k ∉ cur → k ∉ mentioned fh → k ≠ ALL → lines_for k (scopes cur fh) = [].
Proof.
  induction fh as [|raw fh IH]; intros cur Hcur Hm Hne; simpl; [done|].
  change (raw :: fh) with ([raw] ++ fh) in Hm. rewrite mentioned_app in Hm.
  apply not_elem_of_union in Hm as [Hraw Hm].
  assert (mentioned [raw] =
          if is_open (line_of raw) then editors_of (line_of raw) else ∅) as Heq.
  { unfold mentioned. simpl. apply leibniz_equiv, (right_id ∅ (∪)). }
  rewrite Heq in Hraw.
  destruct (is_open (line_of raw)); [by apply IH|].
  destruct (is_close (line_of raw)).
  - apply IH; [|done|done]. by intros ?%elem_of_singleton.
  - rewrite lines_for_cons_out by done. by apply IH.
Qed.

Lemma lines_for_app (k : str) (l1 l2 : list (gset str * str)) :
  lines_for k (l1 ++ l2) = lines_for k l1 ++ lines_for k l2.
Proof. unfold lines_for. by rewrite filter_app, fmap_app. Qed.

(** X5: when a first document parses and ends outside any scoped region,
    and a second document parses, the two put one after the other parse
    too, and every bucket of the result is the bucket of the first
    followed by the bucket of the second (a missing bucket counting as
    empty). *)
Theorem parse_concatenation (fh1 fh2 : list str) (b1 b2 : gmap str (list str)) :
  parse_loop init fh1 = Ok (State b1 {[ALL]}) →
  parse_base_file fh2 = Ok b2 →
  ∃ b, parse_base_file (fh1 ++ fh2) = Ok b ∧
       dom b = dom b1 ∪ dom b2 ∧
       ∀ k, default [] (b !! k) = default [] (b1 !! k) ++ default [] (b2 !! k).
Proof.
  intros H1 H2. set (st1 := State b1 {[ALL]}) in *.
  assert (current_editors st1 = {[ALL]}) as Hcur by done.
  change b1 with (buckets st1). clearbody st1.
  pose proof (parse_loop_first_malformed fh2 init) as Hf2.
  pose proof (parse_loop_first_malformed fh2 st1) as Hf1.
  unfold parse_base_file in *.
  destruct (parse_loop init fh2) as [st2|e] eqn:Hl2; simpl in H2; [|done].
  injection H2 as <-.
  destruct (first_malformed fh2) as [line|]; [congruence|].
  destruct Hf1 as [st Hst].
  assert (parse_loop init (fh1 ++ fh2) = Ok st) as Hall.
  { by rewrite parse_loop_app, H1. }
  rewrite Hall. simpl. exists (buckets st). split; [done|].
  destruct (parse_loop_dom _ _ _ Hall scoped_init) as [Hd _].
  destruct (parse_loop_dom _ _ _ H1 scoped_init) as [Hd1 _].
  destruct (parse_loop_dom _ _ _ Hl2 scoped_init) as [Hd2 _].
  split.
  { rewrite Hd, Hd1, Hd2, mentioned_app. set_solver. }
  intros k.
  rewrite (parse_loop_scopes _ _ _ k Hall scoped_init).
  rewrite (parse_loop_scopes _ _ _ k H1 scoped_init).
  rewrite (parse_loop_scopes _ _ _ k Hl2 scoped_init).
  rewrite (scopes_app fh1 fh2 init st1 H1), Hcur, lines_for_app, mentioned_app.
  cbn [init buckets current_editors]. rewrite dom_singleton_L.
  destruct (decide (k = ALL)) as [->|Hne].
  - rewrite !decide_True by set_solver. rewrite lookup_singleton_eq. done.
  - rewrite lookup_singleton_ne by done. simpl.
    destruct (decide (k ∈ mentioned fh1)) as [Hm1|Hm1];
    destruct (decide (k ∈ mentioned fh2)) as [Hm2|Hm2].
    + rewrite !decide_True by set_solver. done.
    + rewrite (decide_True (P := k ∈ {[ALL]} ∪ (mentioned fh1 ∪ mentioned fh2)))
        by set_solver.
      rewrite (decide_True (P := k ∈ {[ALL]} ∪ mentioned fh1)) by set_solver.
      rewrite (decide_False (P := k ∈ {[ALL]} ∪ mentioned fh2)) by set_solver.
      simpl. rewrite (lines_for_out k fh2); [done| |done|done].
      by intros ?%elem_of_singleton.
    + rewrite (decide_True (P := k ∈ {[ALL]} ∪ (mentioned fh1 ∪ mentioned fh2)))
        by set_solver.
      rewrite (decide_False (P := k ∈ {[ALL]} ∪ mentioned fh1)) by set_solver.
      rewrite (decide_True (P := k ∈ {[ALL]} ∪ mentioned fh2)) by set_solver.
      simpl. rewrite (lines_for_out k fh1); [done| |done|done].
      by intros ?%elem_of_singleton.
    + rewrite !decide_False by set_solver. done.
Qed.

Lemma parse_concatenation_witness :
  ∃ b, parse_base_file ([codes "A"; codes "::only x"; codes "B"; codes "::end"]
                        ++ [codes "C"; codes "::only x"; codes "D"]) = Ok b ∧
       dom b = dom (<[codes "x" := [codes "B"]]> ({[ALL := [codes "A"]]}
                      : gmap str (list str)))
               ∪ dom (<[codes "x" := [codes "D"]]> ({[ALL := [codes "C"]]}
                      : gmap str (list str))) ∧
       ∀ k, default [] (b !! k) =
            default [] ((<[codes "x" := [codes "B"]]> ({[ALL := [codes "A"]]}
                           : gmap str (list str))) !! k)
            ++ default [] ((<[codes "x" := [codes "D"]]> ({[ALL := [codes "C"]]}
                           : gmap str (list str))) !! k).
Proof.
  apply (parse_concatenation
           [codes "A"; codes "::only x"; codes "B"; codes "::end"]
           [codes "C"; codes "::only x"; codes "D"]
           (<[codes "x" := [codes "B"]]> {[ALL := [codes "A"]]})
           (<[codes "x" := [codes "D"]]> {[ALL := [codes "C"]]})).
  - by vm_compute.
  - by vm_compute.
Defined.

(** ** The output record and what is written *)

Lemma dict_set_fresh {V} (k : str) (v : V) (d : list (str * V)) :
  k ∉ d.*1 → dict_set k v d = d ++ [(k, v)].
Proof.
  induction d as [|[k0 v0] d IH]; simpl; [done|].
  intros [Hne Hd]%not_elem_of_cons.
  rewrite decide_False by done. by rewrite IH.
Qed.

Lemma dict_get_NoDup {V} (k : str) (v : V) (d : list (str * V)) :
  NoDup d.*1 → (k, v) ∈ d → dict_get k d = Some v.
Proof.
  induction d as [|[k0 v0] d IH]; simpl; [by intros _ ?%elem_of_nil|].
  intros [Hk0 Hd]%NoDup_cons [[= -> ->]|Hin]%elem_of_cons.
  - by rewrite decide_True.
  - rewrite decide_False; [by apply IH|].
    intros ->. apply Hk0. apply list_elem_of_fmap. by exists (k, v).
Qed.

Lemma build_loop_NoDup (b : gmap str (list str)) (al : list (str * path)) :
  ∀ outputs : list (str * str),
  NoDup (outputs.*1 ++ al.*1) →
  foldl (λ outputs '(editor, dest),
           let lines := default [] (b !! ALL) ++ default [] (b !! editor) in
           dict_set editor (rstrip (join [NL] lines) ++ [NL]) outputs)
        outputs al =
  outputs ++ (output_entry b <$> al).
Proof.
  induction al as [|[editor dest] al IH]; intros outputs Hnd.
  - by rewrite app_nil_r.
  - cbn [foldl]. rewrite fmap_cons in Hnd. cbn [fst] in Hnd.
    assert (editor ∉ outputs.*1) as Hfresh.
    { apply NoDup_app in Hnd as (_ & Hdis & _). intros Hin.
      apply (Hdis _ Hin). apply list_elem_of_here. }
    rewrite (dict_set_fresh _ _ _ Hfresh), IH.
    + rewrite <- app_assoc. done.
    + rewrite fmap_app. simpl. rewrite <- app_assoc. done.
Qed.

Lemma build_outputs_NoDup (b : gmap str (list str)) (al : list (str * path)) :
  NoDup al.*1 → build_outputs b al = output_entry b <$> al.
Proof.
  intros Hnd. unfold build_outputs. by rewrite build_loop_NoDup.
Qed.

(** X6: for a registry without repeated keys, as every dict is, the output
    record has one entry per entry of the registry, in the order of the
    registry, each holding the text composed for that target. *)
Theorem build_outputs_in_order (b : gmap str (list str)) (al : list (str * path)) :
  NoDup al.*1 →
  build_outputs b al = (λ entry, (entry.1, composed b entry.1)) <$> al.
Proof. apply build_outputs_NoDup. Qed.

Lemma build_outputs_in_order_witness :
  build_outputs example1_buckets [(codes "y", codes "y.md"); (codes "x", codes "x.md")] =
  (λ entry, (entry.1, composed example1_buckets entry.1))
    <$> [(codes "y", codes "y.md"); (codes "x", codes "x.md")].
Proof.
  apply (build_outputs_in_order example1_buckets
           [(codes "y", codes "y.md"); (codes "x", codes "x.md")]).
  apply (bool_decide_unpack _). by vm_compute.
Defined.

(** *** Operations that may fail *)

Lemma perform_all_app (w : world) (todo1 todo2 : list event) : ∀ history,
  perform_all w history (todo1 ++ todo2) =
  match perform_all w history todo1 with
  | (evs, Raise e) => (evs, Raise e)
  | (evs, Ok _) =>
      let '(evs', r) := perform_all w (history ++ evs) todo2 in (evs ++ evs', r)
  end.
Proof.
  induction todo1 as [|ev todo1 IH]; intros history; simpl.
  - rewrite app_nil_r. by destruct (perform_all w history todo2).
  - destruct (w history ev) as [e|]; [done|]. rewrite IH.
    destruct (perform_all w (history ++ [ev]) todo1) as [evs [[]|e]]; [|done].
    rewrite <- app_assoc. simpl.
    by destruct (perform_all w (history ++ ev :: evs) todo2).
Qed.

Lemma perform_all_calm (w : world) (todo : list event) : ∀ history,
  calm w → perform_all w history todo = (todo, Ok ()).
Proof.
  induction todo as [|ev todo IH]; intros history Hw; simpl; [done|].
  by rewrite Hw, IH.
Qed.

(** An exception of [perform_all] is one the world raised. *)
Lemma perform_all_raise (w : world) (todo : list event) : ∀ history e,
  (perform_all w history todo).2 = Raise e → ∃ h ev, w h ev = Some e.
Proof.
  induction todo as [|ev todo IH]; intros history e; simpl; [done|].
  destruct (w history ev) as [e'|] eqn:Hw.
  - intros [= <-]. eauto.
  - destruct (perform_all w (history ++ [ev]) todo) as [evs r] eqn:Hp.
    simpl. intros ->. apply (IH (history ++ [ev]) e). by rewrite Hp.
Qed.

(** The operations of one iteration of [write_outputs]. *)
Lemma iteration_events (b : gmap str (list str)) (dry_run : bool)
    (editor : str) (dest : path) :
  (if dry_run then
     [Ev_print (codes "----- " ++ dest ++ codes " (editor=" ++ editor
                ++ codes ") -----" ++ [NL] ++ composed b editor ++ [NL])]
   else [Ev_write_text dest (composed b editor); Ev_print (codes "Wrote " ++ dest)]) =
  (if dry_run then preview_events b else write_events b) (editor, dest).
Proof. by destruct dry_run. Qed.

Lemma write_outputs_entries (w : world) (b : gmap str (list str))
    (al : list (str * path)) (dry_run : bool) (entries : list (str * path)) :
  (∀ entry, entry ∈ entries → dict_get entry.1 al = Some entry.2) →
  ∀ history,
  write_outputs w history (output_entry b <$> entries) al dry_run =
  perform_all w history
    (concat ((if dry_run then preview_events b else write_events b) <$> entries)).
Proof.
  induction entries as [|[editor dest] entries IH]; intros Hget history; [done|].
  rewrite fmap_cons. cbn [output_entry fst write_outputs].
  pose proof (Hget (editor, dest) (list_elem_of_here _ _)) as Hd. cbn [fst snd] in Hd.
  rewrite Hd, iteration_events. rewrite fmap_cons. cbn [concat].
  rewrite perform_all_app.
  destruct (perform_all w history _) as [evs [[]|e]]; [|done].
  rewrite IH by (intros entry Hin; apply Hget; by apply list_elem_of_further).
  done.
Qed.

Lemma write_outputs_NoDup (w : world) (history : list event)
    (b : gmap str (list str)) (al : list (str * path)) (dry_run : bool) :
  NoDup al.*1 →
  write_outputs w history (build_outputs b al) al dry_run =
  perform_all w history
    (concat ((if dry_run then preview_events b else write_events b) <$> al)).
Proof.
  intros Hnd. rewrite (build_outputs_NoDup b al Hnd).
  apply (write_outputs_entries w b al dry_run al).
  intros [editor dest] Hin. by apply dict_get_NoDup.
Qed.

(** X7: for a registry without repeated keys, writing the output record
    built for it never fails on a missing key. It attempts, for each entry
    of the registry in order, to write the composed text to the entry's
    destination and then to print [Wrote <destination>] (in a dry run: to
    print the preview of that text, and no write), and it stops at the
    first of these operations that fails, with the exception of that
    operation. When no operation fails, all of them are performed. *)
Theorem write_outputs_of_build (w : world) (history : list event)
    (b : gmap str (list str)) (al : list (str * path)) (dry_run : bool) :
  NoDup al.*1 →
  write_outputs w history (build_outputs b al) al dry_run =
    perform_all w history
      (concat ((if dry_run then preview_events b else write_events b) <$> al)) ∧
  (calm w →
   write_outputs w history (build_outputs b al) al dry_run =
     (concat ((if dry_run then preview_events b else write_events b) <$> al), Ok ())).
Proof.
  intros Hnd. rewrite write_outputs_NoDup by done. split; [done|].
  intros Hw. by apply perform_all_calm.
Qed.

Lemma write_outputs_of_build_witness :
  write_outputs (failing_at (codes "nodir/x.md") no_such_dir) []
    (build_outputs example1_buckets
       [(codes "y", codes "y.md"); (codes "x", codes "nodir/x.md")])
    [(codes "y", codes "y.md"); (codes "x", codes "nodir/x.md")] false =
    perform_all (failing_at (codes "nodir/x.md") no_such_dir) []
      (concat (write_events example1_buckets
                 <$> [(codes "y", codes "y.md"); (codes "x", codes "nodir/x.md")])) ∧
  (calm (failing_at (codes "nodir/x.md") no_such_dir) →
   write_outputs (failing_at (codes "nodir/x.md") no_such_dir) []
     (build_outputs example1_buckets
        [(codes "y", codes "y.md"); (codes "x", codes "nodir/x.md")])
     [(codes "y", codes "y.md"); (codes "x", codes "nodir/x.md")] false =
     (concat (write_events example1_buckets
                <$> [(codes "y", codes "y.md"); (codes "x", codes "nodir/x.md")]),
      Ok ())).
Proof.
  apply (write_outputs_of_build (failing_at (codes "nodir/x.md") no_such_dir) []
           example1_buckets
           [(codes "y", codes "y.md"); (codes "x", codes "nodir/x.md")] false).
  apply (bool_decide_unpack _). by vm_compute.
Defined.

(** A write that fails ends the loop: the entries before it are done, its
    own message and the entries after it are not. *)
Example unwritable_destination :
  write_outputs (failing_at (codes "nodir/x.md") no_such_dir) []
    (build_outputs example1_buckets
       [(codes "y", codes "y.md"); (codes "x", codes "nodir/x.md");
        (codes "z", codes "z.md")])
    [(codes "y", codes "y.md"); (codes "x", codes "nodir/x.md");
     (codes "z", codes "z.md")] false =
  ([Ev_write_text (codes "y.md") (composed example1_buckets (codes "y"));
    Ev_print (codes "Wrote y.md")],
   Raise no_such_dir).
Proof. by vm_compute. Qed.

(** X8: a dry run writes nothing, whatever the output record, the registry
    and the world, also when it stops on a missing key or on a failed
    print. *)
Theorem dry_run_never_writes (w : world) (history : list event)
    (outputs : list (str * str)) (al : list (str * path)) :
  Forall (λ ev, is_write ev = false) (write_outputs w history outputs al true).1.
Proof.
  revert history.
  induction outputs as [|[editor content] outputs IH]; intros history; simpl;
    [constructor|].
  destruct (dict_get editor al) as [dest|]; [|constructor].
  destruct (w history _) as [e|]; [constructor|]. simpl.
  specialize (IH (history ++
    [Ev_print (codes "----- " ++ dest ++ codes " (editor=" ++ editor
               ++ codes ") -----" ++ [NL] ++ content ++ [NL])])).
  destruct (write_outputs w _ outputs al true) as [evs r]. simpl in *.
  by constructor.
Qed.

Lemma write_outputs_app (w : world) (outputs1 outputs2 : list (str * str))
    (al : list (str * path)) (dry_run : bool) : ∀ history,
  (write_outputs w history outputs1 al dry_run).2 = Ok () →
  write_outputs w history (outputs1 ++ outputs2) al dry_run =
  ((write_outputs w history outputs1 al dry_run).1
   ++ (write_outputs w (history ++ (write_outputs w history outputs1 al dry_run).1)
         outputs2 al dry_run).1,
   (write_outputs w (history ++ (write_outputs w history outputs1 al dry_run).1)
      outputs2 al dry_run).2).
Proof.
  induction outputs1 as [|[editor content] outputs1 IH]; intros history; simpl.
  - intros _. rewrite app_nil_r. by destruct (write_outputs w history outputs2 al dry_run).
  - destruct (dict_get editor al) as [dest|]; [|done].
    destruct (perform_all w history _) as [evs [[]|e]]; [|done].
    destruct (write_outputs w (history ++ evs) outputs1 al dry_run) as [evs1 r1] eqn:H1.
    simpl. intros Hr. rewrite (IH (history ++ evs)) by (by rewrite H1).
    rewrite H1. simpl. by rewrite !app_assoc.
Qed.

(** With every key in the registry, an exception of [write_outputs] is one
    the world raised. *)
Lemma write_outputs_raise (w : world) (outputs : list (str * str))
    (al : list (str * path)) (dry_run : bool) : ∀ history e,
  (∀ k, k ∈ outputs.*1 → k ∈ al.*1) →
  (write_outputs w history outputs al dry_run).2 = Raise e →
  ∃ h ev, w h ev = Some e.
Proof.
  induction outputs as [|[editor content] outputs IH]; intros history e Hk; simpl;
    [done|].
  destruct (proj2 (dict_get_is_Some editor al)) as [dest ->].
  { apply Hk. apply list_elem_of_here. }
  destruct (perform_all w history _) as [evs [[]|e']] eqn:Hp.
  - destruct (write_outputs w (history ++ evs) outputs al dry_run) as [evs1 r1] eqn:H1.
    simpl. intros ->. apply (IH (history ++ evs) e).
    + intros k Hin. apply Hk. by apply list_elem_of_further.
    + by rewrite H1.
  - simpl. intros [= <-]. eapply perform_all_raise. by rewrite Hp.
Qed.

Lemma write_outputs_calm (w : world) (outputs : list (str * str))
    (al : list (str * path)) (dry_run : bool) : ∀ history,
  (∀ k, k ∈ outputs.*1 → k ∈ al.*1) → calm w →
  (write_outputs w history outputs al dry_run).2 = Ok ().
Proof.
  induction outputs as [|[editor content] outputs IH]; intros history Hk Hw; simpl;
    [done|].
  destruct (proj2 (dict_get_is_Some editor al)) as [dest ->].
  { apply Hk. apply list_elem_of_here. }
  rewrite perform_all_calm by done.
  specialize (IH (history ++ (if dry_run then
      [Ev_print (codes "----- " ++ dest ++ codes " (editor=" ++ editor
                 ++ codes ") -----" ++ [NL] ++ content ++ [NL])]
    else [Ev_write_text dest content; Ev_print (codes "Wrote " ++ dest)]))).
  destruct (write_outputs w _ outputs al dry_run) as [evs r]. simpl in *.
  apply IH; [|done]. intros k Hin. apply Hk. by apply list_elem_of_further.
Qed.

(** X9: when the entries before it are processed without failure and the
    output record then holds a key that the registry lacks,
    [write_outputs] raises [KeyError] for that key; what the entries
    before it wrote or printed has been done by then, the entries after it
    are not processed. *)
Theorem write_outputs_missing_key (w : world) (history : list event)
    (pre post : list (str * str)) (editor content : str)
    (al : list (str * path)) (dry_run : bool) :
  (write_outputs w history pre al dry_run).2 = Ok () → editor ∉ al.*1 →
  write_outputs w history (pre ++ (editor, content) :: post) al dry_run =
  ((write_outputs w history pre al dry_run).1, Raise (KeyError editor)).
Proof.
  intros Hok Hed. rewrite (write_outputs_app _ _ _ _ _ _ Hok). simpl.
  destruct (dict_get editor al) as [dest|] eqn:Hget.
  - exfalso. apply Hed. apply dict_get_is_Some. by eexists.
  - simpl. by rewrite app_nil_r.
Qed.

Lemma write_outputs_missing_key_witness :
  write_outputs (λ _ _, None) []
    ([(codes "x", codes "X")] ++ (codes "z", codes "Z") :: [(codes "y", codes "Y")])
    [(codes "x", codes "x.md"); (codes "y", codes "y.md")] false =
  ((write_outputs (λ _ _, None) [] [(codes "x", codes "X")]
      [(codes "x", codes "x.md"); (codes "y", codes "y.md")] false).1,
   Raise (KeyError (codes "z"))).
Proof.
  apply (write_outputs_missing_key (λ _ _, None) []
           [(codes "x", codes "X")] [(codes "y", codes "Y")]
           (codes "z") (codes "Z")
           [(codes "x", codes "x.md"); (codes "y", codes "y.md")] false).
  - by vm_compute.
  - apply (bool_decide_unpack _). by vm_compute.
Defined.

(** ** How [main] ends *)

Lemma build_outputs_keys (b : gmap str (list str)) (al : list (str * path)) (k : str) :
  k ∈ (build_outputs b al).*1 ↔ k ∈ al.*1.
Proof.
  rewrite <- (dict_get_is_Some k (build_outputs b al)), build_outputs_lookup.
  case_decide; split; done.
Qed.

(** X10: [main] never fails on its own. It ends with the exception of
    [exists()] when that call raises; it exits with
    [Base file '<base>' not found.] when the base file is missing; when
    the file cannot be opened or read to its end it exits with the text of
    the exception if it is a [ValueError] (bytes that are not UTF-8) and
    ends with the exception uncaught otherwise; it exits with the message
    of the first malformed directive when the lines read hold one; all of
    these without any event. Otherwise it returns, or ends with an
    exception that the world raised on a write or a print, never with
    [SystemExit] and never with a [KeyError] of its own; it returns when
    no operation fails. This holds for every registry. *)
Theorem main_outcome (w : world) (base : path) (base_file : base_state)
    (al : list (str * path)) (dry_run : bool) :
  match base_file with
  | Stat_fails e => main w base base_file al dry_run = ([], Uncaught e)
  | Missing =>
      main w base base_file al dry_run =
      ([], SystemExit (codes "Base file '" ++ base ++ codes "' not found."))
  | Present (Open_fails e) => main w base base_file al dry_run = ([], handled e)
  | Present (Lines fh failure) =>
      match first_malformed fh, failure with
      | Some line, _ =>
          main w base base_file al dry_run = ([], SystemExit (no_editors_msg line))
      | None, Some e => main w base base_file al dry_run = ([], handled e)
      | None, None =>
          match (main w base base_file al dry_run).2 with
          | Returned => True
          | SystemExit _ => False
          | Uncaught e => ∃ history ev, w history ev = Some e
          end ∧
          (calm w → (main w base base_file al dry_run).2 = Returned)
      end
  end.
Proof.
  destruct base_file as [e| |[e|fh failure]]; [done|done|by destruct e|].
  unfold main, parse_base_path, parse_base_file.
  pose proof (parse_loop_first_malformed fh init) as H.
  destruct (first_malformed fh) as [line|].
  - by rewrite H.
  - destruct H as [st ->]. simpl. destruct failure as [e|]; [by destruct e|].
    pose proof (write_outputs_raise w (build_outputs (buckets st) al) al dry_run []) as Hr.
    pose proof (write_outputs_calm w (build_outputs (buckets st) al) al dry_run []) as Hc.
    destruct (write_outputs w [] (build_outputs (buckets st) al) al dry_run)
      as [evs [[]|e]]; simpl in *.
    + done.
    + split.
      * apply (Hr e); [|done]. intros k. by apply build_outputs_keys.
      * intros Hw. specialize (Hc (λ k, proj1 (build_outputs_keys _ _ k)) Hw). done.
Qed.

Lemma main_NoDup (w : world) (base : path) (fh : list str) (b : gmap str (list str))
    (al : list (str * path)) (dry_run : bool) :
  parse_base_file fh = Ok b → NoDup al.*1 →
  main w base (Present (Lines fh None)) al dry_run =
  ended (perform_all w []
           (concat ((if dry_run then preview_events b else write_events b) <$> al))).
Proof.
  intros Hp Hnd. unfold main, parse_base_path. rewrite Hp. simpl.
  rewrite (write_outputs_NoDup w [] b al dry_run Hnd). unfold ended.
  by destruct (perform_all w [] _) as [evs [[]|e]].
Qed.

Lemma ended_calm (w : world) (todo : list event) :
  calm w → ended (perform_all w [] todo) = (todo, Returned).
Proof. intros Hw. by rewrite perform_all_calm. Qed.

(** X11: for a base file that is read to its end and parses to the bucket
    map [b], and a registry without repeated keys, [main] attempts, for
    each entry of the registry in order, the write and the message (in a
    dry run, the preview) for the text composed from [b], and nothing
    else; it ends with the exception of the first operation that fails,
    after the events before it, and it returns after all of them when no
    operation fails. *)
Theorem main_events (w : world) (base : path) (fh : list str)
    (b : gmap str (list str)) (al : list (str * path)) (dry_run : bool) :
  parse_base_file fh = Ok b → NoDup al.*1 →
  main w base (Present (Lines fh None)) al dry_run =
    ended (perform_all w []
             (concat ((if dry_run then preview_events b else write_events b) <$> al))) ∧
  (calm w →
   main w base (Present (Lines fh None)) al dry_run =
     (concat ((if dry_run then preview_events b else write_events b) <$> al), Returned)).
Proof.
  intros Hp Hnd. rewrite (main_NoDup w base fh b al dry_run Hp Hnd).
  split; [done|]. apply ended_calm.
Qed.

Lemma main_events_witness :
  main (failing_at (codes "nodir/x.md") no_such_dir) (codes "agentic_rules.md")
       (Present (Lines (example1 true) None))
       [(codes "y", codes "y.md"); (codes "x", codes "nodir/x.md")] false =
    ended (perform_all (failing_at (codes "nodir/x.md") no_such_dir) []
             (concat (write_events example1_buckets
                <$> [(codes "y", codes "y.md"); (codes "x", codes "nodir/x.md")]))) ∧
  (calm (failing_at (codes "nodir/x.md") no_such_dir) →
   main (failing_at (codes "nodir/x.md") no_such_dir) (codes "agentic_rules.md")
        (Present (Lines (example1 true) None))
        [(codes "y", codes "y.md"); (codes "x", codes "nodir/x.md")] false =
     (concat (write_events example1_buckets
                <$> [(codes "y", codes "y.md"); (codes "x", codes "nodir/x.md")]),
      Returned)).
Proof.
  apply (main_events (failing_at (codes "nodir/x.md") no_such_dir)
           (codes "agentic_rules.md") (example1 true) example1_buckets
           [(codes "y", codes "y.md"); (codes "x", codes "nodir/x.md")] false).
  - by vm_compute.
  - apply (bool_decide_unpack _). by vm_compute.
Defined.

(** ** The [--map] values *)

Lemma take_while_not_spec (sep : N) (s : str) :
  (sep ∉ take_while_not sep s) ∧
  (sep ∈ s → s = take_while_not sep s ++ sep :: after_first sep s) ∧
  (sep ∉ s → take_while_not sep s = s).
Proof.
  induction s as [|c s (IH1 & IH2 & IH3)]; simpl.
  - split; [apply not_elem_of_nil|]. split; [by intros ?%elem_of_nil|done].
  - destruct (decide (c = sep)) as [->|Hne].
    + split; [apply not_elem_of_nil|]. split; [done|].
      intros []. apply list_elem_of_here.
    + split; [by apply not_elem_of_cons|]. split.
      * intros [?|Hin]%elem_of_cons; [congruence|]. simpl. by rewrite <- IH2.
      * intros [_ Hs]%not_elem_of_cons. by rewrite IH3.
Qed.

Lemma split_once_spec (sep : N) (s : str) :
  split_once sep s =
  if decide (sep ∈ s) then [take_while_not sep s; after_first sep s] else [s].
Proof.
  induction s as [|c s IH]; cbn [split_once take_while_not after_first].
  - rewrite decide_False; [done|]. apply not_elem_of_nil.
  - destruct (decide (c = sep)) as [->|Hne].
    + rewrite decide_True; [done|]. apply list_elem_of_here.
    + rewrite IH. destruct (decide (sep ∈ s)) as [Hin|Hnin].
      * rewrite decide_True; [done|]. by apply list_elem_of_further.
      * rewrite decide_False; [done|]. apply not_elem_of_cons. split; [congruence|done].
Qed.

Lemma map_step_spec (expanduser : str → result path) (al : list (str * path))
    (mapping : str) :
  map_step expanduser al mapping =
  if bad_mapping mapping then Raise (ArgumentTypeError (invalid_map_msg mapping))
  else dest ← expanduser (after_first 58 mapping);
       Ok (dict_set (strip (take_while_not 58 mapping)) dest al).
Proof.
  unfold map_step, bad_mapping. rewrite split_once_spec.
  destruct (decide (58 ∈ mapping)) as [Hin|Hnin].
  - rewrite (bool_decide_eq_false_2 (58 ∉ mapping)) by tauto. simpl.
    destruct (decide (strip (take_while_not 58 mapping) = [])) as [He|He].
    + by rewrite bool_decide_eq_true_2.
    + by rewrite bool_decide_eq_false_2.
  - by rewrite (bool_decide_eq_true_2 (58 ∉ mapping)).
Qed.

Lemma map_loop_first_failure (expanduser : str → result path) (maps : list str) :
  ∀ al,
  match first_map_failure expanduser maps with
  | Some e => map_loop expanduser al maps = Raise e
  | None => ∃ al', map_loop expanduser al maps = Ok al'
  end.
Proof.
  induction maps as [|m maps IH]; intros al; simpl; [by eexists|].
  rewrite map_step_spec. destruct (bad_mapping m); [done|].
  destruct (expanduser (after_first 58 m)) as [dest|e]; simpl; [|done]. apply IH.
Qed.

Lemma parse_map_args_loop (expanduser : str → result path) (maps : list str) :
  parse_map_args expanduser (Some maps) = map_loop expanduser [] maps.
Proof. by destruct maps. Qed.

(** X12: [parse_map_args] goes through the [--map] values in order and
    raises at the first one that fails: [ArgumentTypeError], quoting the
    value, when the value has no colon or has only blanks before its first
    colon, and otherwise whatever [Path(..).expanduser()] raises on the
    text after the first colon, unconverted. The exception ends [main]
    uncaught, before the base file is looked at and without any event.
    When no value fails, a registry is returned. *)
Theorem parse_map_args_errors (w : world) (expanduser : str → result path)
    (maps : list str) (base : path) (dry_run : bool) (base_file : base_state) :
  match first_map_failure expanduser maps with
  | Some e =>
      parse_map_args expanduser (Some maps) = Raise e ∧
      main_from_args w expanduser base (Some maps) dry_run base_file =
        ([], Uncaught e)
  | None => ∃ al, parse_map_args expanduser (Some maps) = Ok al
  end.
Proof.
  unfold main_from_args. rewrite parse_map_args_loop.
  pose proof (map_loop_first_failure expanduser maps []) as H.
  destruct (first_map_failure expanduser maps) as [e|]; [by rewrite H|done].
Qed.

(** A home directory that cannot be resolved comes before a later refused
    value, and is not turned into [ArgumentTypeError]. *)
Example unresolved_home_first :
  parse_map_args
    (λ p, if decide (p = codes "~nosuchuser/f")
          then Raise (OtherError (codes "RuntimeError") (codes "Could not determine home directory."))
          else Ok p)
    (Some [codes "x:~nosuchuser/f"; codes "bad"]) =
  Raise (OtherError (codes "RuntimeError") (codes "Could not determine home directory.")).
Proof. by vm_compute. Qed.

(** The editor and the destination a [--map] value stands for. *)
Lemma map_loop_lookup (expanduser : str → result path) (maps : list str) (k : str) :
  ∀ al al',
  map_loop expanduser al maps = Ok al' →
  Ok <$> dict_get k al' =
  match last (filter (λ m, strip (take_while_not 58 m) = k) maps) with
  | Some m => Some (expanduser (after_first 58 m))
  | None => Ok <$> dict_get k al
  end.
Proof.
  induction maps as [|m maps IH]; intros al al'; simpl.
  - by intros [= <-].
  - rewrite map_step_spec. destruct (bad_mapping m); [done|].
    destruct (expanduser (after_first 58 m)) as [dest|e] eqn:Hx; simpl; [|done].
    intros Hl. rewrite (IH _ _ Hl), dict_get_set.
    rewrite filter_cons. destruct (decide (strip (take_while_not 58 m) = k)) as [<-|Hne].
    + rewrite decide_True by done.
      destruct (filter _ maps) as [|m' ms] eqn:Hf; [simpl; by rewrite Hx|].
      rewrite last_cons_cons. destruct (last (m' :: ms)) eqn:Hlast; [done|].
      by apply last_None in Hlast.
    + rewrite decide_False by done. done.
Qed.

(** X13: in the registry [parse_map_args] returns, an editor maps to the
    destination of the last [--map] value given for it: the text after
    the value's first colon, later colons included, passed through
    [Path(..).expanduser()]; the editor is the text before the first
    colon, trimmed. An editor no value names is absent. *)
Theorem parse_map_args_last_wins (expanduser : str → result path) (maps : list str)
    (al : list (str * path)) (k : str) :
  parse_map_args expanduser (Some maps) = Ok al →
  Ok <$> dict_get k al =
  (λ m, expanduser (after_first 58 m))
    <$> last (filter (λ m, strip (take_while_not 58 m) = k) maps).
Proof.
  rewrite parse_map_args_loop. intros Hl.
  rewrite (map_loop_lookup expanduser maps k [] al Hl).
  by destruct (last _).
Qed.

Lemma parse_map_args_last_wins_witness :
  Ok <$> dict_get (codes "x") [(codes "x", codes "C:/z"); (codes "codex", codes "b.md")] =
  (λ m, Ok (after_first 58 m))
    <$> last (filter (λ m, strip (take_while_not 58 m) = codes "x")
                [codes " x : a.md"; codes "codex:b.md"; codes "x:C:/z"]).
Proof.
  apply (parse_map_args_last_wins (λ p, Ok p)
           [codes " x : a.md"; codes "codex:b.md"; codes "x:C:/z"]
           [(codes "x", codes "C:/z"); (codes "codex", codes "b.md")] (codes "x")).
  by vm_compute.
Defined.

(** ** Keys of the registry *)

Lemma dict_set_keys {V} (k : str) (v : V) (d : list (str * V)) :
  (dict_set k v d).*1 = if decide (k ∈ d.*1) then d.*1 else d.*1 ++ [k].
Proof.
  induction d as [|[k0 v0] d IH]; cbn [dict_set].
  - rewrite decide_False; [done|]. apply not_elem_of_nil.
  - rewrite !fmap_cons. cbn [fst]. destruct (decide (k0 = k)) as [->|Hne].
    + rewrite decide_True; [done|]. apply list_elem_of_here.
    + rewrite fmap_cons, IH. cbn [fst]. destruct (decide (k ∈ d.*1)) as [Hin|Hnin].
      * rewrite decide_True; [done|]. by apply list_elem_of_further.
      * rewrite decide_False; [done|]. apply not_elem_of_cons. split; [congruence|done].
Qed.

Lemma dict_set_NoDup {V} (k : str) (v : V) (d : list (str * V)) :
  NoDup d.*1 → NoDup (dict_set k v d).*1.
Proof.
  intros Hnd. rewrite dict_set_keys. case_decide as Hk; [done|].
  apply NoDup_app. split; [done|]. split; [|apply NoDup_singleton].
  intros x Hx ->%list_elem_of_singleton. done.
Qed.

Lemma dict_set_prefix {V} (k : str) (v : V) (d : list (str * V)) :
  d.*1 `prefix_of` (dict_set k v d).*1.
Proof.
  rewrite dict_set_keys. case_decide; [done|]. by apply prefix_app_r.
Qed.

Lemma elem_of_dict_set_keys {V} (k k' : str) (v : V) (d : list (str * V)) :
  k' ∈ (dict_set k v d).*1 ↔ k' = k ∨ k' ∈ d.*1.
Proof.
  rewrite dict_set_keys. case_decide as Hk.
  - split; [by right|]. by intros [->|?].
  - rewrite elem_of_app, list_elem_of_singleton. tauto.
Qed.

Lemma map_loop_keys (expanduser : str → result path) (maps : list str) :
  ∀ al al',
  map_loop expanduser al maps = Ok al' →
  NoDup al.*1 → Forall map_key al.*1 →
  NoDup al'.*1 ∧ Forall map_key al'.*1.
Proof.
  induction maps as [|m maps IH]; intros al al'; simpl.
  - by intros [= <-].
  - rewrite map_step_spec. destruct (bad_mapping m) eqn:Hbad; [done|].
    destruct (expanduser (after_first 58 m)) as [dest|e]; simpl; [|done].
    intros Hl Hnd Hall. apply (IH _ _ Hl); [by apply dict_set_NoDup|].
    apply Forall_forall. intros k [->|Hk]%elem_of_dict_set_keys.
    + unfold bad_mapping in Hbad.
      apply orb_false_iff in Hbad as [_ Hne%bool_decide_eq_false].
      split; [done|]. split; [apply strip_idemp|].
      intros Hin%elem_of_strip. by apply (take_while_not_spec 58 m).
    + rewrite Forall_forall in Hall. by apply Hall.
Qed.

Lemma parse_map_args_NoDup (expanduser : str → result path)
    (map_args : option (list str)) (al : list (str * path)) :
  parse_map_args expanduser map_args = Ok al →
  NoDup al.*1 ∧ Forall map_key al.*1.
Proof.
  destruct map_args as [maps|]; [|intros [= <-]; split; constructor].
  rewrite parse_map_args_loop. intros Hl.
  apply (map_loop_keys expanduser maps [] al Hl); constructor.
Qed.

(** X14: the registry [parse_map_args] returns has no key twice, and each
    of its keys is non-empty, has no whitespace at either end and
    contains no colon. *)
Theorem parse_map_args_keys (expanduser : str → result path)
    (map_args : option (list str)) (al : list (str * path)) :
  parse_map_args expanduser map_args = Ok al →
  NoDup al.*1 ∧ Forall (λ k, k ≠ [] ∧ strip k = k ∧ 58 ∉ k) al.*1.
Proof. apply parse_map_args_NoDup. Qed.

Lemma parse_map_args_keys_witness :
  NoDup [(codes "x", codes "C:/z"); (codes "codex", codes "b.md")].*1 ∧
  Forall (λ k, k ≠ [] ∧ strip k = k ∧ 58 ∉ k)
    [(codes "x", codes "C:/z"); (codes "codex", codes "b.md")].*1.
Proof.
  apply (parse_map_args_keys (λ p, Ok p)
           (Some [codes " x : a.md"; codes "codex:b.md"; codes "x:C:/z"])
           [(codes "x", codes "C:/z"); (codes "codex", codes "b.md")]).
  by vm_compute.
Defined.

(** ** The merged registry *)

Lemma dict_merge_keys {V} (d2 : list (str * V)) : ∀ d1 : list (str * V),
  NoDup d1.*1 →
  NoDup (dict_merge d1 d2).*1 ∧ d1.*1 `prefix_of` (dict_merge d1 d2).*1.
Proof.
  unfold dict_merge. induction d2 as [|[k v] d2 IH]; intros d1 Hnd; simpl; [done|].
  destruct (IH (dict_set k v d1)) as [Hnd' Hpre]; [by apply dict_set_NoDup|].
  split; [done|]. etrans; [apply (dict_set_prefix k v)|done].
Qed.

Lemma dict_merge_lookup {V} (d2 : list (str * V)) : ∀ (d1 : list (str * V)) k,
  NoDup d2.*1 →
  dict_get k (dict_merge d1 d2) =
  match dict_get k d2 with
  | Some v => Some v
  | None => dict_get k d1
  end.
Proof.
  unfold dict_merge. induction d2 as [|[k0 v0] d2 IH]; intros d1 k Hnd; [done|].
  rewrite fmap_cons in Hnd. apply NoDup_cons in Hnd as [Hk0 Hnd].
  cbn [foldl dict_get]. rewrite (IH _ _ Hnd), dict_get_set.
  destruct (decide (k0 = k)) as [->|Hne].
  - rewrite decide_True by done.
    destruct (dict_get k d2) as [v|] eqn:Hget; [|done].
    exfalso. apply Hk0. apply dict_get_is_Some. by eexists.
  - by rewrite decide_False by congruence.
Qed.

Lemma DEFAULT_ALIAS_NoDup : NoDup DEFAULT_ALIAS.*1.
Proof. apply (bool_decide_unpack _). by vm_compute. Qed.

(** X15: the registry [main] uses, the defaults updated with the [--map]
    values, has no key twice; it starts with the three default editors in
    their order; and an editor maps to its [--map] destination when it
    has one and to its default destination otherwise. *)
Theorem merged_registry (expanduser : str → result path)
    (map_args : option (list str)) (overrides : list (str * path)) :
  parse_map_args expanduser map_args = Ok overrides →
  NoDup (dict_merge DEFAULT_ALIAS overrides).*1 ∧
  DEFAULT_ALIAS.*1 `prefix_of` (dict_merge DEFAULT_ALIAS overrides).*1 ∧
  ∀ k, dict_get k (dict_merge DEFAULT_ALIAS overrides) =
       match dict_get k overrides with
       | Some p => Some p
       | None => dict_get k DEFAULT_ALIAS
       end.
Proof.
  intros [Hov _]%parse_map_args_NoDup.
  destruct (dict_merge_keys overrides DEFAULT_ALIAS DEFAULT_ALIAS_NoDup) as [Hnd Hpre].
  split; [done|]. split; [done|]. intros k. by apply dict_merge_lookup.
Qed.

Lemma merged_registry_witness :
  NoDup (dict_merge DEFAULT_ALIAS
           [(codes "codex", codes "b.md"); (codes "new", codes "n.md")]).*1 ∧
  DEFAULT_ALIAS.*1 `prefix_of`
    (dict_merge DEFAULT_ALIAS
       [(codes "codex", codes "b.md"); (codes "new", codes "n.md")]).*1 ∧
  ∀ k, dict_get k (dict_merge DEFAULT_ALIAS
                     [(codes "codex", codes "b.md"); (codes "new", codes "n.md")]) =
       match dict_get k [(codes "codex", codes "b.md"); (codes "new", codes "n.md")] with
       | Some p => Some p
       | None => dict_get k DEFAULT_ALIAS
       end.
Proof.
  apply (merged_registry (λ p, Ok p)
           (Some [codes "codex:a.md"; codes "new:n.md"; codes "codex:b.md"])
           [(codes "codex", codes "b.md"); (codes "new", codes "n.md")]).
  by vm_compute.
Defined.

Lemma main_from_args_NoDup (w : world) (expanduser : str → result path) (base : path)
    (map_args : option (list str)) (overrides : list (str * path))
    (dry_run : bool) (fh : list str) (b : gmap str (list str)) :
  parse_map_args expanduser map_args = Ok overrides →
  parse_base_file fh = Ok b →
  main_from_args w expanduser base map_args dry_run (Present (Lines fh None)) =
  ended (perform_all w []
           (concat ((if dry_run then preview_events b else write_events b)
                      <$> dict_merge DEFAULT_ALIAS overrides))).
Proof.
  intros Hm Hp. unfold main_from_args. rewrite Hm.
  apply main_NoDup; [done|].
  apply dict_merge_keys, DEFAULT_ALIAS_NoDup.
Qed.

(** X16: when the [--map] values are accepted and the base file is read to
    its end and parses to the bucket map [b], [main] attempts, for each
    entry of the merged registry in order (the defaults first), the write
    and the message, or in a dry run the preview, for the text composed
    from [b]; it ends with the exception of the first operation that
    fails, after the events before it, and it returns after all of them
    when no operation fails. *)
Theorem main_from_args_events (w : world) (expanduser : str → result path)
    (base : path) (map_args : option (list str)) (overrides : list (str * path))
    (dry_run : bool) (fh : list str) (b : gmap str (list str)) :
  parse_map_args expanduser map_args = Ok overrides →
  parse_base_file fh = Ok b →
  main_from_args w expanduser base map_args dry_run (Present (Lines fh None)) =
    ended (perform_all w []
             (concat ((if dry_run then preview_events b else write_events b)
                        <$> dict_merge DEFAULT_ALIAS overrides))) ∧
  (calm w →
   main_from_args w expanduser base map_args dry_run (Present (Lines fh None)) =
     (concat ((if dry_run then preview_events b else write_events b)
                <$> dict_merge DEFAULT_ALIAS overrides), Returned)).
Proof.
  intros Hm Hp.
  rewrite (main_from_args_NoDup w expanduser base map_args overrides dry_run fh b Hm Hp).
  split; [done|]. apply ended_calm.
Qed.

Lemma main_from_args_events_witness :
  main_from_args (failing_at (codes "nodir/x.md") no_such_dir) (λ p, Ok p)
    (codes "agentic_rules.md") (Some [codes "x:nodir/x.md"]) false
    (Present (Lines (example1 true) None)) =
    ended (perform_all (failing_at (codes "nodir/x.md") no_such_dir) []
             (concat (write_events example1_buckets
                        <$> dict_merge DEFAULT_ALIAS [(codes "x", codes "nodir/x.md")]))) ∧
  (calm (failing_at (codes "nodir/x.md") no_such_dir) →
   main_from_args (failing_at (codes "nodir/x.md") no_such_dir) (λ p, Ok p)
     (codes "agentic_rules.md") (Some [codes "x:nodir/x.md"]) false
     (Present (Lines (example1 true) None)) =
     (concat (write_events example1_buckets
                <$> dict_merge DEFAULT_ALIAS [(codes "x", codes "nodir/x.md")]),
      Returned)).
Proof.
  apply (main_from_args_events (failing_at (codes "nodir/x.md") no_such_dir) (λ p, Ok p)
           (codes "agentic_rules.md") (Some [codes "x:nodir/x.md"])
           [(codes "x", codes "nodir/x.md")] false (example1 true) example1_buckets).
  - by vm_compute.
  - by vm_compute.
Defined.

(** With [--map x:nodir/x.md], the three default files are written, the
    write to the fourth destination fails, and [main] ends with that
    exception after six events. *)
Example unwritable_map_destination :
  main_from_args (failing_at (codes "nodir/x.md") no_such_dir) (λ p, Ok p)
    (codes "agentic_rules.md") (Some [codes "x:nodir/x.md"]) false
    (Present (Lines (example1 true) None)) =
  ([Ev_write_text (codes ".windsurfrules") (composed example1_buckets (codes "windsurf"));
    Ev_print (codes "Wrote .windsurfrules");
    Ev_write_text (codes "AGENTS.md") (composed example1_buckets (codes "codex"));
    Ev_print (codes "Wrote AGENTS.md");
    Ev_write_text (codes ".cusrorrules.mdc") (composed example1_buckets (codes "cusror"));
    Ev_print (codes "Wrote .cusrorrules.mdc")],
   Uncaught no_such_dir).
Proof. by vm_compute. Qed.

(** X17: run without any [--map] and not as a dry run, on a base file that
    is read to its end and parses to [b], [main] attempts exactly six
    operations, in this order: write [.windsurfrules], print its [Wrote]
    message, write [AGENTS.md], print its message, write
    [.cusrorrules.mdc], print its message, each write with the text
    composed for its editor. It ends with the exception of the first of
    them that fails, after the events before it; when none fails, the
    three files are written and [main] returns. *)
Theorem default_run (w : world) (expanduser : str → result path) (base : path)
    (fh : list str) (b : gmap str (list str)) :
  parse_base_file fh = Ok b →
  main_from_args w expanduser base None false (Present (Lines fh None)) =
    ended (perform_all w []
      [Ev_write_text (codes ".windsurfrules") (composed b (codes "windsurf"));
       Ev_print (codes "Wrote .windsurfrules");
       Ev_write_text (codes "AGENTS.md") (composed b (codes "codex"));
       Ev_print (codes "Wrote AGENTS.md");
       Ev_write_text (codes ".cusrorrules.mdc") (composed b (codes "cusror"));
       Ev_print (codes "Wrote .cusrorrules.mdc")]) ∧
  (calm w →
   main_from_args w expanduser base None false (Present (Lines fh None)) =
     ([Ev_write_text (codes ".windsurfrules") (composed b (codes "windsurf"));
       Ev_print (codes "Wrote .windsurfrules");
       Ev_write_text (codes "AGENTS.md") (composed b (codes "codex"));
       Ev_print (codes "Wrote AGENTS.md");
       Ev_write_text (codes ".cusrorrules.mdc") (composed b (codes "cusror"));
       Ev_print (codes "Wrote .cusrorrules.mdc")], Returned)).
Proof.
  intros Hp.
  rewrite (main_from_args_NoDup w expanduser base None [] false fh b eq_refl Hp).
  split; [done|]. intros Hw. by rewrite (ended_calm w _ Hw).
Qed.

Lemma default_run_witness :
  main_from_args (λ _ _, None) (λ p, Ok p) (codes "agentic_rules.md") None false
    (Present (Lines (example1 true) None)) =
    ended (perform_all (λ _ _, None) []
      [Ev_write_text (codes ".windsurfrules") (composed example1_buckets (codes "windsurf"));
       Ev_print (codes "Wrote .windsurfrules");
       Ev_write_text (codes "AGENTS.md") (composed example1_buckets (codes "codex"));
       Ev_print (codes "Wrote AGENTS.md");
       Ev_write_text (codes ".cusrorrules.mdc") (composed example1_buckets (codes "cusror"));
       Ev_print (codes "Wrote .cusrorrules.mdc")]) ∧
  (calm (λ _ _, None) →
   main_from_args (λ _ _, None) (λ p, Ok p) (codes "agentic_rules.md") None false
     (Present (Lines (example1 true) None)) =
     ([Ev_write_text (codes ".windsurfrules") (composed example1_buckets (codes "windsurf"));
       Ev_print (codes "Wrote .windsurfrules");
       Ev_write_text (codes "AGENTS.md") (composed example1_buckets (codes "codex"));
       Ev_print (codes "Wrote AGENTS.md");
       Ev_write_text (codes ".cusrorrules.mdc") (composed example1_buckets (codes "cusror"));
       Ev_print (codes "Wrote .cusrorrules.mdc")], Returned)).
Proof.
  apply (default_run (λ _ _, None) (λ p, Ok p) (codes "agentic_rules.md")
           (example1 true) example1_buckets).
  by vm_compute.
Defined.
